(** * ProgressPill: a scroll-driven day-progress indicator

    Shallow embedding of [src/ProgressPill.jsx] and the properties of its
    animation engine: the banded colour interpolator [lerpColors], the
    one-time path sampler, the per-frame easing [tick], the day-backward
    crossfade and the label transition machine with its timers.

    Numbers.  A JavaScript Number is read as a real number: the arithmetic
    of the source ([+], [-], [*], [Math.exp], [Math.min], comparisons) is
    the arithmetic of [R], rounding to binary64 left aside.  The only
    operation of the modelled code whose result can leave the finite
    numbers is the quotient [i / n] of the path sampler; it is modelled
    with its IEEE 754 special results (type [number] below).  Integral
    values (day numbers, colour channels, loop counters) are in [Z] or
    [nat]; [Math.round] and [Math.ceil] return integers.  Time on the
    host's timer queue is counted in whole milliseconds. *)

From Stdlib Require Import Reals Lra Lia ZArith List String Bool.
Import ListNotations.

Open Scope R_scope.

(** ** JavaScript [Math] on real numbers *)

(** [Math.floor(x)]: the greatest integer not above [x]. *)
Definition Math_floor (x : R) : Z := Int_part x.

(** [Math.ceil(x)]: the least integer not below [x]. *)
Definition Math_ceil (x : R) : Z := (- Int_part (- x))%Z.

(** [Math.round(x)]: the nearest integer, ties towards +infinity, that is
    [floor(x + 0.5)]. *)
Definition Math_round (x : R) : Z := Int_part (x + 0.5).

(** [Math.abs], [Math.min], [Math.max], [Math.exp] are [Rabs], [Rmin],
    [Rmax], [exp]. *)

(** ** Colour interpolation *)

Module Color.

(** A colour is the array of its integer channels ([[r, g, b]]); a palette
    is an array of colours. *)
Definition color := list Z.
Definition palette := list color.

(** Gradient segment colours: track (stroke/ring) and bg (dot fill). *)
Definition TRACK_RGB : palette :=
  [ [249; 174; 119]; [236; 203; 96]; [146; 191; 219]; [196; 185; 224] ]%Z.
Definition BG_RGB : palette :=
  [ [255; 231; 206]; [250; 238; 198]; [225; 236; 235]; [240; 234; 236] ]%Z.

Definition boundaries : list R := [0.25; 0.5; 0.75].
Definition halfTrans : R := 0.035.

(** [xs.map((v, k) => f v k)]. *)
Fixpoint mapi_from {A B : Type} (k : nat) (f : A -> nat -> B) (xs : list A) : list B :=
  match xs with
  | [] => []
  | v :: rest => f v k :: mapi_from (S k) f rest
  end.
Definition mapi {A B : Type} (f : A -> nat -> B) (xs : list A) : list B :=
  mapi_from 0 f xs.

(** [from.map((v, k) => Math.round(v + (to[k] - v) * s))].  A channel
    missing in [to] (not the case for RGB triples) reads as 0 here. *)
Definition blend (from to : color) (s : R) : color :=
  mapi (fun v k => Math_round (IZR v + (IZR (nth k to 0%Z) - IZR v) * s)) from.

(** [f * f * (3 - 2 * f)]. *)
Definition smoothstep (f : R) : R := f * f * (3 - 2 * f).

(** The body of the loop of [lerpColors] at index [b], on the current [c]. *)
Definition lerpColors_body (p : palette) (t : R) (c : color) (b : nat) : color :=
  let bd := nth b boundaries 0 in
  if Rgt_dec t (bd + halfTrans) then
    nth (b + 1) p []
  else if Rgt_dec t (bd - halfTrans) then
    let f := (t - (bd - halfTrans)) / (2 * halfTrans) in
    let s := f * f * (3 - 2 * f) in
    blend (nth b p []) (nth (b + 1) p []) s
  else c.

(** [lerpColors(palette, t)]: [c] starts as [palette[0]] and the loop runs
    over [b = 0 .. boundaries.length - 1]. *)
Definition lerpColors (p : palette) (t : R) : color :=
  fold_left (lerpColors_body p t) (seq 0 (List.length boundaries)) (nth 0 p []).

(** [rgb(c)] formats the channels; the model keeps the triple. *)
Definition rgb (c : color) : Z * Z * Z :=
  (nth 0 c 0%Z, nth 1 c 0%Z, nth 2 c 0%Z).

(** The window of half-width 0.035 around a boundary. *)
Definition in_window (t bd : R) : Prop := Rabs (t - bd) <= 0.035.

Definition in_window_dec (t bd : R) : {in_window t bd} + {~ in_window t bd} :=
  Rle_dec (Rabs (t - bd)) 0.035.

(** What [lerpColors] computes in the window of boundary number [b], the
    weight written as the smoothstep of the local fraction. *)
Definition window_blend (p : palette) (b : nat) (bd t : R) : color :=
  let f := (t - (bd - 0.035)) / 0.07 in
  blend (nth b p []) (nth (b + 1) p []) (smoothstep f).

(** The band a position lies in: the number of boundaries below it. *)
Definition band_of (t : R) : nat :=
  if Rlt_dec t 0.25 then 0%nat
  else if Rlt_dec t 0.5 then 1%nat
  else if Rlt_dec t 0.75 then 2%nat
  else 3%nat.

(** The banded-smoothstep reference, after the specification and without
    the code's own blend and rounding.  [z] is [x] rounded to an integer:
    an integer nearest to [x] (where [x] is half-way between two integers
    the specification leaves the side open). *)
Definition rounded_to (x : R) (z : Z) : Prop := Rabs (IZR z - x) <= 1 / 2.

(** [c] is the component-wise linear blend of [from] and [to] with weight
    [w], rounded to integer channels. *)
Definition blend_of (from to : color) (w : R) (c : color) : Prop :=
  List.length c = List.length from
  /\ forall k : nat, (k < List.length from)%nat ->
       rounded_to ((1 - w) * IZR (nth k from 0%Z) + w * IZR (nth k to 0%Z))
                  (nth k c 0%Z).

(** [c] is the colour of the palette [p] at [t]: within 0.035 of a
    boundary the blend of the two adjacent entries, weighted by the
    smoothstep [f^2 (3 - 2 f)] of the local fraction
    [f = (t - (boundary - 0.035)) / 0.07]; outside every window the entry
    of the enclosing band. *)
Definition colorAt_spec (p : palette) (t : R) (c : color) : Prop :=
  if in_window_dec t 0.25 then
    let f := (t - (0.25 - 0.035)) / 0.07 in
    blend_of (nth 0 p []) (nth 1 p []) (f * f * (3 - 2 * f)) c
  else if in_window_dec t 0.5 then
    let f := (t - (0.5 - 0.035)) / 0.07 in
    blend_of (nth 1 p []) (nth 2 p []) (f * f * (3 - 2 * f)) c
  else if in_window_dec t 0.75 then
    let f := (t - (0.75 - 0.035)) / 0.07 in
    blend_of (nth 2 p []) (nth 3 p []) (f * f * (3 - 2 * f)) c
  else c = nth (band_of t) p [].

(** A colour of three channels, each in 0..255. *)
Definition rgb_color (c : color) : Prop :=
  List.length c = 3%nat /\ Forall (fun v => (0 <= v <= 255)%Z) c.

(** A palette of four such colours. *)
Definition rgb_palette (p : palette) : Prop :=
  List.length p = 4%nat /\ Forall rgb_color p.

End Color.

(** ** Path sampling *)

Module Sampler.

(** The result of a quotient of two finite numbers: IEEE 754 gives NaN for
    [0 / 0] and an infinity for [x / 0] with [x] not zero (the sign is that
    of [x] for the divisor [+0], which is what [Math.ceil] of a non-negative
    length gives). *)
Inductive number : Type :=
| Num (r : R)
| PosInf
| NegInf
| NaN.

Definition js_div (x y : R) : number :=
  if Req_dec_T y 0 then
    if Req_dec_T x 0 then NaN
    else if Rlt_dec 0 x then PosInf else NegInf
  else Num (x / y).

(** [t * x] for a finite [x]. *)
Definition js_mul (t : number) (x : R) : number :=
  match t with
  | Num r => Num (r * x)
  | PosInf =>
      if Req_dec_T x 0 then NaN else if Rlt_dec 0 x then PosInf else NegInf
  | NegInf =>
      if Req_dec_T x 0 then NaN else if Rlt_dec 0 x then NegInf else PosInf
  | NaN => NaN
  end.

Record Point : Type := { px : R; py : R }.

(** The path element behind [pathRef]: the two measurements the rendering
    surface offers. *)
Record SVGPath : Type := {
  getTotalLength : R;
  getPointAtLength : number -> Point
}.

Record SamplePoint : Type := { x : R; y : R; t : number }.

(** The sampling of the setup effect ([pts] after the loop): [n] is
    [Math.ceil(totalLen / step)] and the loop runs for [i = 0 .. n], so not
    at all when [n] is negative. *)
Definition samplePoints (path : SVGPath) : list SamplePoint :=
  let totalLen := getTotalLength path in
  let step := 1.4 in
  let n := Math_ceil (totalLen / step) in
  map (fun i : nat =>
         let t := js_div (INR i) (IZR n) in
         let pt := getPointAtLength path (js_mul t totalLen) in
         {| x := px pt; y := py pt; t := t |})
      (seq 0 (Z.to_nat (n + 1))).





(** A path of length 500 (the outline of the pill is a little longer),
    every query answering the start point. *)
Definition path500 : SVGPath :=
  {| getTotalLength := 500;
     getPointAtLength := fun _ => {| px := 115; py := 2 |} |}.

End Sampler.

(** ** The animated position: refs, day-backward detection, frame loop *)

Module Anim.

(** [dayTransitionRef.current]: [{ fromColor, fade }] or [null]. *)
Record Crossfade : Type := { fromColor : Color.color; fade : R }.

(** The refs of the component that the frame loop and the day-backward
    effect share, and [lastTime], the local of the frame-loop effect. *)
Record State : Type := {
  displayRef : R;
  targetRef : R;
  prevDayNumRef : Z;
  dayTransitionRef : option Crossfade;
  lastTime : R
}.

(** The component has just mounted with [dayNumber] (the refs' initial
    values, [targetRef.current = progress] of the first render). *)
Definition mount (dayNumber : Z) (progress : R) : State :=
  {| displayRef := 0; targetRef := progress; prevDayNumRef := dayNumber;
     dayTransitionRef := None; lastTime := 0 |}.

(** The day-backward effect, run after a render with [dayNumber] and
    [progress]. *)
Definition dayBackwardEffect (dayNumber : Z) (progress : R) (st : State) : State :=
  if Z.eqb dayNumber (prevDayNumRef st) then st
  else
    let wentBack := Z.ltb dayNumber (prevDayNumRef st) in
    if wentBack then
      {| displayRef := progress;
         targetRef := progress;
         prevDayNumRef := dayNumber;
         dayTransitionRef :=
           Some {| fromColor := Color.lerpColors Color.TRACK_RGB 0; fade := 0 |};
         lastTime := lastTime st |}
    else
      {| displayRef := displayRef st;
         targetRef := targetRef st;
         prevDayNumRef := dayNumber;
         dayTransitionRef := dayTransitionRef st;
         lastTime := lastTime st |}.

(** A render with new props: the effect runs once the render is committed,
    and the render itself has stored [targetRef.current = progress].  (The
    statement is after the effect in the source, but the effect's body runs
    later; when neither prop has changed the effect does not run, and its
    body would do nothing.) *)
Definition render (dayNumber : Z) (progress : R) (st : State) : State :=
  dayBackwardEffect dayNumber progress
    {| displayRef := displayRef st;
       targetRef := progress;
       prevDayNumRef := prevDayNumRef st;
       dayTransitionRef := dayTransitionRef st;
       lastTime := lastTime st |}.

Definition EASE : R := 12.

(** The body of [tick] once [dt] is known: the crossfade is advanced, then
    the displayed position is snapped or eased.  (The rest of [tick] writes
    the marker's position and colours to the DOM and changes no ref.) *)
Definition tick_dt (dt : R) (st : State) : State :=
  let trans := dayTransitionRef st in
  let dayTransition' :=
    match trans with
    | Some tr =>
        if Rlt_dec (fade tr) 1 then
          let fade' := Rmin (fade tr + dt * 2.5) 1 in
          if Rge_dec fade' 1 then None
          else Some {| fromColor := fromColor tr; fade := fade' |}
        else trans
    | None => None
    end in
  let target := targetRef st in
  let current := displayRef st in
  let diff := target - current in
  let display' :=
    if Rlt_dec diff (-0.3) then target
    else
      let step := 1 - exp (- EASE * dt) in
      let eased := current + diff * step in
      if Rlt_dec (Rabs diff) 0.001 then target else eased in
  {| displayRef := display';
     targetRef := target;
     prevDayNumRef := prevDayNumRef st;
     dayTransitionRef := dayTransition';
     lastTime := lastTime st |}.

(** [dt] of a frame: [lastTime ? Math.min((now - lastTime) / 1000, 0.05) : 0.016]. *)
Definition frame_dt (lastTime now : R) : R :=
  if Req_dec_T lastTime 0 then 0.016
  else Rmin ((now - lastTime) / 1000) 0.05.

(** [tick(now)]. *)
Definition tick (now : R) (st : State) : State :=
  let dt := frame_dt (lastTime st) now in
  tick_dt dt
    {| displayRef := displayRef st;
       targetRef := targetRef st;
       prevDayNumRef := prevDayNumRef st;
       dayTransitionRef := dayTransitionRef st;
       lastTime := now |}.

(** [n] frames of the same [dt]. *)
Definition ticks (dt : R) (n : nat) (st : State) : State :=
  Nat.iter n (tick_dt dt) st.

(** The displayed position after [n] frames of 16ms. *)
Definition displayed16 (n : nat) (st : State) : R :=
  displayRef (ticks 0.016 n st).

(** The fraction of the distance to the target that is left after an easing
    frame of 16ms. *)
Definition q16 : R := exp (- EASE * 0.016).

End Anim.

(** ** The label: text transition state machine with its timers *)

Module Label.

Inductive TextPhase : Type := idle | exiting | entering.

Definition TextPhase_eqb (a b : TextPhase) : bool :=
  match a, b with
  | idle, idle | exiting, exiting | entering, entering => true
  | _, _ => false
  end.

(** The two callbacks the component gives to [setTimeout], with the props
    their closures have captured. *)
Inductive callback : Type :=
| exitDone (dayNumber : Z) (distance : string)
| enterDone.

(** A pending timer of the host: its id, the time (ms) it is due at and
    its callback. *)
Record timer : Type := { tid : nat; due : nat; action : callback }.

(** The props of the last render, the state and the ref of the component,
    the cleanup that the last run of the label effect has returned (the id
    of the exit timer it clears), and the host's clock and timer queue
    (pending timers in the order of their creation). *)
Record State : Type := {
  dayNumber : Z;
  distance : string;
  textPhase : TextPhase;
  displayDay : Z;
  displayDist : string;
  prevDayRef : Z;
  exitCleanup : option nat;
  now : nat;
  timers : list timer;
  nextId : nat
}.

Definition set_props (d : Z) (dist : string) (st : State) : State :=
  {| dayNumber := d; distance := dist;
     textPhase := textPhase st; displayDay := displayDay st;
     displayDist := displayDist st; prevDayRef := prevDayRef st;
     exitCleanup := exitCleanup st;
     now := now st; timers := timers st; nextId := nextId st |}.

Definition setTextPhase (ph : TextPhase) (st : State) : State :=
  {| dayNumber := dayNumber st; distance := distance st;
     textPhase := ph; displayDay := displayDay st;
     displayDist := displayDist st; prevDayRef := prevDayRef st;
     exitCleanup := exitCleanup st;
     now := now st; timers := timers st; nextId := nextId st |}.

Definition setDisplayDay (d : Z) (st : State) : State :=
  {| dayNumber := dayNumber st; distance := distance st;
     textPhase := textPhase st; displayDay := d;
     displayDist := displayDist st; prevDayRef := prevDayRef st;
     exitCleanup := exitCleanup st;
     now := now st; timers := timers st; nextId := nextId st |}.

Definition setDisplayDist (dist : string) (st : State) : State :=
  {| dayNumber := dayNumber st; distance := distance st;
     textPhase := textPhase st; displayDay := displayDay st;
     displayDist := dist; prevDayRef := prevDayRef st;
     exitCleanup := exitCleanup st;
     now := now st; timers := timers st; nextId := nextId st |}.

Definition set_prevDayRef (d : Z) (st : State) : State :=
  {| dayNumber := dayNumber st; distance := distance st;
     textPhase := textPhase st; displayDay := displayDay st;
     displayDist := displayDist st; prevDayRef := d;
     exitCleanup := exitCleanup st;
     now := now st; timers := timers st; nextId := nextId st |}.

Definition set_exitCleanup (c : option nat) (st : State) : State :=
  {| dayNumber := dayNumber st; distance := distance st;
     textPhase := textPhase st; displayDay := displayDay st;
     displayDist := displayDist st; prevDayRef := prevDayRef st;
     exitCleanup := c;
     now := now st; timers := timers st; nextId := nextId st |}.

Definition set_now (t : nat) (st : State) : State :=
  {| dayNumber := dayNumber st; distance := distance st;
     textPhase := textPhase st; displayDay := displayDay st;
     displayDist := displayDist st; prevDayRef := prevDayRef st;
     exitCleanup := exitCleanup st;
     now := t; timers := timers st; nextId := nextId st |}.

(** [setTimeout(cb, delay)]: the new timer's id and the new state. *)
Definition setTimeout (cb : callback) (delay : nat) (st : State) : nat * State :=
  (nextId st,
   {| dayNumber := dayNumber st; distance := distance st;
      textPhase := textPhase st; displayDay := displayDay st;
      displayDist := displayDist st; prevDayRef := prevDayRef st;
      exitCleanup := exitCleanup st;
      now := now st;
      timers := timers st ++ [ {| tid := nextId st; due := now st + delay; action := cb |} ];
      nextId := S (nextId st) |}).

(** [clearTimeout(id)]: nothing happens when no such timer is pending. *)
Definition clearTimeout (id : nat) (st : State) : State :=
  {| dayNumber := dayNumber st; distance := distance st;
     textPhase := textPhase st; displayDay := displayDay st;
     displayDist := displayDist st; prevDayRef := prevDayRef st;
     exitCleanup := exitCleanup st;
     now := now st;
     timers := filter (fun tm => negb (Nat.eqb (tid tm) id)) (timers st);
     nextId := nextId st |}.

(** The component has just mounted: state and ref hold the first props,
    no timer is pending (both effects run and change nothing). *)
Definition mount (d : Z) (dist : string) : State :=
  {| dayNumber := d; distance := dist;
     textPhase := idle; displayDay := d; displayDist := dist;
     prevDayRef := d; exitCleanup := None;
     now := 0; timers := []; nextId := 1 |}.

(** The label effect (dependencies [[dayNumber, distance]]), run with the
    props [d] and [dist] of the render.  The exit timer's callback is
    [exitDone d dist]; the function it returns is dropped by [setTimeout]. *)
Definition labelEffect (d : Z) (dist : string) (st : State) : State :=
  if Z.eqb d (prevDayRef st) then set_exitCleanup None st
  else
    let st1 := set_prevDayRef d st in
    let st2 := setTextPhase exiting st1 in
    let (exitTimer, st3) := setTimeout (exitDone d dist) 240 st2 in
    set_exitCleanup (Some exitTimer) st3.

(** The cleanup of the label effect's last run: [clearTimeout(exitTimer)]. *)
Definition runCleanup (st : State) : State :=
  match exitCleanup st with
  | Some exitTimer => clearTimeout exitTimer st
  | None => st
  end.

(** The distance effect (dependencies [[distance, textPhase, dayNumber,
    displayDay]]): it reads these four in the render [seen] and updates
    [st]. *)
Definition distanceEffect (seen st : State) : State :=
  if TextPhase_eqb (textPhase seen) idle && Z.eqb (dayNumber seen) (displayDay seen)
  then setDisplayDist (distance seen) st
  else st.

(** After state updates the component renders again with the same props;
    the distance effect runs again if one of its dependencies differs from
    the render [before]. *)
Definition rerender (before st : State) : State :=
  if TextPhase_eqb (textPhase before) (textPhase st)
     && Z.eqb (displayDay before) (displayDay st)
  then st
  else distanceEffect st st.

(** A render with the props [d] and [dist].  When one of them has changed,
    the cleanup of the label effect's last run and then the effect run, and
    the distance effect runs; both read the state of this render.  The
    updates they made are then rendered. *)
Definition render (d : Z) (dist : string) (st : State) : State :=
  let seen := set_props d dist st in
  if Z.eqb d (dayNumber st) && String.eqb dist (distance st) then seen
  else
    let st1 := labelEffect d dist (runCleanup seen) in
    let st2 := distanceEffect seen st1 in
    rerender seen st2.

(** The component is removed: React runs the cleanup of the label effect. *)
Definition unmount (st : State) : State := runCleanup st.

(** A timer's callback runs (its updates are committed together), then
    the component renders again. *)
Definition fire (cb : callback) (st : State) : State :=
  match cb with
  | exitDone d dist =>
      let st1 := setDisplayDay d st in
      let st2 := setDisplayDist dist st1 in
      let st3 := setTextPhase entering st2 in
      let (enterTimer, st4) := setTimeout enterDone 280 st3 in
      rerender st st4
  | enterDone => rerender st (setTextPhase idle st)
  end.

(** A due timer fires unless it has been cleared in the meantime. *)
Definition fire_due (st : State) (tm : timer) : State :=
  if existsb (fun x => Nat.eqb (tid x) (tid tm)) (timers st)
  then fire (action tm) (clearTimeout (tid tm) st)
  else st.

(** One millisecond passes: the timers due by then fire in the order of
    their creation. *)
Definition advance1 (st : State) : State :=
  let st' := set_now (S (now st)) st in
  fold_left fire_due (filter (fun tm => Nat.leb (due tm) (now st')) (timers st')) st'.

(** [ms] milliseconds pass without a render from the host. *)
Fixpoint elapse (ms : nat) (st : State) : State :=
  match ms with
  | O => st
  | S k => elapse k (advance1 st)
  end.

(** The states the component goes through. *)
Inductive reachable : State -> Prop :=
| reachable_mount (d : Z) (dist : string) : reachable (mount d dist)
| reachable_render (d : Z) (dist : string) (st : State) :
    reachable st -> reachable (render d dist st)
| reachable_elapse (ms : nat) (st : State) :
    reachable st -> reachable (elapse ms st).

(** The machine at rest: idle, showing the current day, nothing pending. *)
Definition at_rest (st : State) : Prop :=
  textPhase st = idle
  /\ displayDay st = dayNumber st
  /\ prevDayRef st = dayNumber st
  /\ timers st = [].

(** A pending exit timer is the one the effect's cleanup clears, and its
    callback carries the props of the last render. *)
Definition exit_timers_current (st : State) : Prop :=
  forall (tm : timer) (d : Z) (dist : string),
    In tm (timers st) -> action tm = exitDone d dist ->
    d = dayNumber st /\ dist = distance st /\ exitCleanup st = Some (tid tm).

(** An idle label that shows the current day shows the current distance. *)
Definition idle_label_synced (st : State) : Prop :=
  textPhase st = idle -> dayNumber st = displayDay st ->
  displayDist st = distance st.

End Label.

(** ** What is drawn: the sample of the marker and the track stroke *)

Module Draw.

Import Sampler.

(** The colour of a crossfade, channel by channel:
    [[Math.round(from[0] * (1 - f) + target[0] * f), ... [1] ..., ... [2] ...]]. *)
Definition mix3 (from target : Color.color) (f : R) : Color.color :=
  [ Math_round (IZR (nth 0 from 0%Z) * (1 - f) + IZR (nth 0 target 0%Z) * f);
    Math_round (IZR (nth 1 from 0%Z) * (1 - f) + IZR (nth 1 target 0%Z) * f);
    Math_round (IZR (nth 2 from 0%Z) * (1 - f) + IZR (nth 2 target 0%Z) * f) ].

(** The index of the sample the marker is put at:
    [Math.min(Math.floor(p * (pts.length - 1)), pts.length - 1)] for
    [p = Math.min(Math.max(displayed, 0), 0.998)]. *)
Definition markerIndex (displayed : R) (len : nat) : Z :=
  let p := Rmin (Rmax displayed 0) 0.998 in
  Z.min (Math_floor (p * (INR len - 1))) (Z.of_nat len - 1).

(** A stroked line of the track: from [(x1, y1)] to [(x2, y2)]. *)
Record Stroke : Type := { x1 : R; y1 : R; x2 : R; y2 : R }.

(** The line drawn for the segment from [p1] to [p2]: it runs 0.3 past
    [p2], to overlap the next one. *)
Definition strokeTo (p1 p2 : SamplePoint) : Stroke :=
  let dx := x p2 - x p1 in
  let dy := y p2 - y p1 in
  let segLen := sqrt (dx * dx + dy * dy) in
  let ov := if Rgt_dec segLen 0 then 0.3 / segLen else 0 in
  {| x1 := x p1; y1 := y p1; x2 := x p2 + dx * ov; y2 := y p2 + dy * ov |}.

(** The loop [for (i = 0; i < visibleIdx; i++)] over the samples that are
    left, with its [break] when there is no [pts[i + 1]]. *)
Fixpoint strokes (count : nat) (pts : list SamplePoint) : list Stroke :=
  match count, pts with
  | S k, p1 :: rest =>
      match rest with
      | p2 :: _ => strokeTo p1 p2 :: strokes k rest
      | [] => []
      end
  | _, _ => []
  end.

(** [Math.floor(Math.min(progress, 0.998) * (pts.length - 1))]. *)
Definition visibleIdx (progress : R) (len : nat) : Z :=
  Math_floor (Rmin progress 0.998 * (INR len - 1)).

(** The stroke colour: blended with the crossfade's colour while one is
    active. *)
Definition trackColor (trans : option Anim.Crossfade) (progress : R) : Z * Z * Z :=
  let targetColor := Color.lerpColors Color.TRACK_RGB (Rmin progress 0.998) in
  match trans with
  | Some tr =>
      if Rlt_dec (Anim.fade tr) 1 then
        Color.rgb (mix3 (Anim.fromColor tr) targetColor (Anim.fade tr))
      else Color.rgb targetColor
  | None => Color.rgb targetColor
  end.

(** The canvas after the layout effect: not touched, cleared only, or
    cleared and stroked in one colour. *)
Inductive canvas : Type :=
| Untouched
| Cleared
| Stroked (style : Z * Z * Z) (segments : list Stroke).

(** The layout effect that draws the track: [ctx] tells whether
    [ctxRef.current] is set. *)
Definition drawTrack
    (ctx : bool) (pts : list SamplePoint) (trans : option Anim.Crossfade)
    (progress : R) : canvas :=
  if negb ctx || Nat.eqb (List.length pts) 0 then Untouched
  else if Rlt_dec progress 0.003 then Cleared
  else
    Stroked (trackColor trans progress)
            (strokes (Z.to_nat (visibleIdx progress (List.length pts))) pts).

End Draw.

(** ** The host: renders and frames in any order *)

Module Host.

(** What happens to the component: a render with new props, or a frame
    with its timestamp. *)
Inductive event : Type :=
| Render (dayNumber : Z) (progress : R)
| Frame (now : R).

Definition step (st : Anim.State) (e : event) : Anim.State :=
  match e with
  | Render d p => Anim.render d p st
  | Frame now => Anim.tick now st
  end.

Definition run (es : list event) (st : Anim.State) : Anim.State :=
  fold_left step es st.

(** The host keeps its side: progress is in the unit interval and the
    timestamps of the frames do not go back ([last] is the timestamp of
    the frame before). *)
Fixpoint well_behaved (last : R) (es : list event) : Prop :=
  match es with
  | [] => True
  | Render _ p :: rest => 0 <= p <= 1 /\ well_behaved last rest
  | Frame now :: rest => last <= now /\ well_behaved now rest
  end.


(** Frames of the elapsed times [dts], one after the other. *)
Definition frames (dts : list R) (st : Anim.State) : Anim.State :=
  fold_left (fun s d => Anim.tick_dt d s) dts st.

(** What the host's runs keep: positions in the unit interval, and a
    crossfade, when there is one, with a fade in [[0, 1)]. *)
Definition in_unit (st : Anim.State) : Prop :=
  0 <= Anim.displayRef st <= 1 /\ 0 <= Anim.targetRef st <= 1.

Definition fade_active (st : Anim.State) : Prop :=
  forall tr : Anim.Crossfade,
    Anim.dayTransitionRef st = Some tr -> 0 <= Anim.fade tr < 1.

End Host.

(** * Properties *)

(** ** Integer roundings *)


Lemma Math_ceil_bounds (x : R) : IZR (Math_ceil x) - 1 < x <= IZR (Math_ceil x).
Proof.
  unfold Math_ceil. rewrite opp_IZR.
  destruct (base_Int_part (- x)) as [Hlo Hhi]. lra.
Qed.

Lemma Math_round_spec (x : R) (z : Z) :
  IZR z - 0.5 <= x < IZR z + 0.5 -> Math_round x = z.
Proof.
  intros [Hlo Hhi]. unfold Math_round. symmetry. apply Int_part_spec. lra.
Qed.

Lemma Math_round_IZR (z : Z) : Math_round (IZR z) = z.
Proof. apply Math_round_spec. lra. Qed.


Lemma Rabs_le_bounds (a b : R) : Rabs a <= b -> - b <= a <= b.
Proof. unfold Rabs. destruct (Rcase_abs a); lra. Qed.

Lemma Rabs_lt_bounds (a b : R) : Rabs a < b <-> - b < a < b.
Proof. unfold Rabs. destruct (Rcase_abs a); lra. Qed.

(** ** The colour interpolator *)

Section ColorFacts.

Import Color.

Lemma mapi_from_round_id (to : color) (s : R) (from : color) (k : nat) :
  s = 0 ->
  mapi_from k (fun v j => Math_round (IZR v + (IZR (nth j to 0%Z) - IZR v) * s)) from
  = from.
Proof.
  intros ->. revert k.
  induction from as [| v rest IH]; intros k; simpl.
  - reflexivity.
  - rewrite IH. f_equal.
    rewrite Rmult_0_r, Rplus_0_r. apply Math_round_IZR.
Qed.

(** A blend of weight 0 is the first colour: its channels are integers. *)
Lemma blend_0 (from to : color) (s : R) : s = 0 -> blend from to s = from.
Proof. intros Hs. unfold blend, mapi. now apply mapi_from_round_id. Qed.

(** The loop of [lerpColors], unrolled over the three boundaries. *)
Lemma lerpColors_unroll (p : palette) (t : R) :
  lerpColors p t =
  lerpColors_body p t (lerpColors_body p t (lerpColors_body p t (nth 0 p []) 0) 1) 2.
Proof. reflexivity. Qed.

(** The weight the code computes in a window is the smoothstep of the
    specification's local fraction. *)
Lemma window_weight (t bd : R) :
  let f := (t - (bd - halfTrans)) / (2 * halfTrans) in
  f * f * (3 - 2 * f) = smoothstep ((t - (bd - 0.035)) / 0.07).
Proof.
  unfold smoothstep, halfTrans. simpl.
  replace (2 * 0.035) with 0.07 by lra. reflexivity.
Qed.

Ltac split_cases :=
  repeat match goal with
    | |- context [Rgt_dec ?a ?b] => destruct (Rgt_dec a b)
    | |- context [Rlt_dec ?a ?b] => destruct (Rlt_dec a b)
    | |- context [Rle_dec ?a ?b] => destruct (Rle_dec a b)
    end.

(** Below the first window the colour is the first entry. *)
Lemma lerpColors_first (p : palette) (t : R) :
  t <= 0.25 - 0.035 -> lerpColors p t = nth 0 p [].
Proof.
  intros Ht. rewrite lerpColors_unroll.
  unfold lerpColors_body, boundaries, halfTrans; simpl nth.
  split_cases; try lra; reflexivity.
Qed.

(** Strictly between two windows, and above the last one, the colour is
    the entry of the band. *)
Lemma lerpColors_band1 (p : palette) (t : R) :
  0.25 + 0.035 < t <= 0.5 - 0.035 -> lerpColors p t = nth 1 p [].
Proof.
  intros Ht. rewrite lerpColors_unroll.
  unfold lerpColors_body, boundaries, halfTrans; simpl nth.
  split_cases; try lra; reflexivity.
Qed.

Lemma lerpColors_band2 (p : palette) (t : R) :
  0.5 + 0.035 < t <= 0.75 - 0.035 -> lerpColors p t = nth 2 p [].
Proof.
  intros Ht. rewrite lerpColors_unroll.
  unfold lerpColors_body, boundaries, halfTrans; simpl nth.
  split_cases; try lra; reflexivity.
Qed.

Lemma lerpColors_last (p : palette) (t : R) :
  0.75 + 0.035 < t -> lerpColors p t = nth 3 p [].
Proof.
  intros Ht. rewrite lerpColors_unroll.
  unfold lerpColors_body, boundaries, halfTrans; simpl nth.
  split_cases; try lra; reflexivity.
Qed.

(** In the window of boundary number [b] the colour is the blend. *)
Lemma lerpColors_window (p : palette) (t : R) (b : nat) (bd : R) :
  (b < 3)%nat -> bd = nth b boundaries 0 ->
  bd - 0.035 < t <= bd + 0.035 ->
  lerpColors p t = window_blend p b bd t.
Proof.
  intros Hb Hbd Ht. rewrite lerpColors_unroll.
  unfold window_blend. rewrite <- (window_weight t bd).
  destruct b as [| [| [| b]]]; try lia; simpl in Hbd; subst bd;
    unfold lerpColors_body, boundaries, halfTrans; simpl nth;
    split_cases; try lra; reflexivity.
Qed.

(** At the lower edge of a window the blend has weight 0. *)
Lemma window_blend_edge (p : palette) (b : nat) (bd t : R) :
  t = bd - 0.035 -> window_blend p b bd t = nth b p [].
Proof.
  intros ->. unfold window_blend. apply blend_0.
  unfold smoothstep. replace (bd - 0.035 - (bd - 0.035)) with 0 by lra.
  unfold Rdiv. rewrite Rmult_0_l. lra.
Qed.







(** In the middle of the second window the weight is one half, and the
    first and the last channel of the marker's fill are half-way between
    two integers (237.5 and 216.5).  The reference accepts both sides
    there.  This is where binary64 and exact arithmetic part: in binary64
    the weight comes out a little above one half and the code returns
    [[237; 237; 217]], in exact arithmetic [Math.round] takes the upper
    side twice, [[238; 237; 217]]. *)
Example colorAt_spec_half_way :
  colorAt_spec BG_RGB 0.5 [237; 237; 217]%Z
  /\ colorAt_spec BG_RGB 0.5 [238; 237; 217]%Z
  /\ lerpColors BG_RGB 0.5 = [238; 237; 217]%Z.
Proof.
  assert (Hspec : forall c0 : Z, (c0 = 237 \/ c0 = 238)%Z ->
            colorAt_spec BG_RGB 0.5 [c0; 237; 217]%Z).
  { intros c0 Hc0. unfold colorAt_spec, in_window_dec.
    destruct (Rle_dec (Rabs (0.5 - 0.25)) 0.035) as [H1 | _].
    { apply Rabs_le_bounds in H1. lra. }
    destruct (Rle_dec (Rabs (0.5 - 0.5)) 0.035) as [_ | H2].
    2:{ exfalso. apply H2. apply Rabs_le. lra. }
    cbv zeta. unfold blend_of, BG_RGB. simpl nth. split; [reflexivity |].
    intros k Hk. simpl in Hk. unfold rounded_to.
    destruct k as [| [| [| k]]]; try lia; simpl nth; apply Rabs_le;
      destruct Hc0 as [-> | ->]; lra. }
  split; [apply Hspec; now left |]. split; [apply Hspec; now right |].
  rewrite (lerpColors_window BG_RGB 0.5 1 0.5); [| lia | reflexivity | lra].
  unfold window_blend, blend, mapi, smoothstep, BG_RGB; simpl.
  repeat f_equal; apply Math_round_spec; lra.
Qed.

(** The two palettes of the component at the ends and in the middle of the
    second window (weight one half: the channels are rounded). *)
Example lerpColors_TRACK_0 : lerpColors TRACK_RGB 0 = [249; 174; 119]%Z.
Proof. rewrite lerpColors_first by lra. reflexivity. Qed.

Example lerpColors_TRACK_half : lerpColors TRACK_RGB 0.5 = [191; 197; 158]%Z.
Proof.
  rewrite (lerpColors_window TRACK_RGB 0.5 1 0.5); [| lia | reflexivity | lra].
  unfold window_blend, blend, mapi, smoothstep, TRACK_RGB; simpl.
  repeat f_equal; apply Math_round_spec; lra.
Qed.

End ColorFacts.

(** ** The frame loop: snap and easing *)

Section TickFacts.

Import Anim.

(** What one frame does to the displayed position, by cases. *)
Lemma tick_dt_display (dt : R) (st : State) :
  displayRef (tick_dt dt st) =
  if Rlt_dec (targetRef st - displayRef st) (-0.3) then targetRef st
  else if Rlt_dec (Rabs (targetRef st - displayRef st)) 0.001 then targetRef st
  else displayRef st + (targetRef st - displayRef st) * (1 - exp (- EASE * dt)).
Proof. reflexivity. Qed.

Lemma tick_dt_target (dt : R) (st : State) : targetRef (tick_dt dt st) = targetRef st.
Proof. reflexivity. Qed.

Lemma tick_display (now : R) (st : State) :
  displayRef (tick now st) = displayRef (tick_dt (frame_dt (lastTime st) now) st).
Proof. reflexivity. Qed.

Lemma tick_crossfade (now : R) (st : State) :
  dayTransitionRef (tick now st)
  = dayTransitionRef (tick_dt (frame_dt (lastTime st) now) st).
Proof. reflexivity. Qed.

(** With timestamps that do not go back, the elapsed time of a frame is
    between 0 and 50ms. *)
Lemma frame_dt_range (lastTime now : R) :
  lastTime <= now -> 0 <= frame_dt lastTime now <= 0.05.
Proof.
  intros Hmono. unfold frame_dt.
  destruct (Req_dec_T lastTime 0) as [_ | _]; [lra |].
  unfold Rmin. destruct (Rle_dec ((now - lastTime) / 1000) 0.05); lra.
Qed.

(** The easing factor of a frame is strictly between 0 and 1. *)
Lemma ease_step_bounds (dt : R) : 0 < dt -> 0 < 1 - exp (- EASE * dt) < 1.
Proof.
  intros Hdt. unfold EASE.
  assert (Hlt : exp (- (12) * dt) < exp 0) by (apply exp_increasing; lra).
  rewrite exp_0 in Hlt.
  pose proof (exp_pos (- (12) * dt)). lra.
Qed.

(** C1. Snap rule: when [target - displayed] is below -0.3, one tick sets
    the displayed position to the target exactly, whatever the elapsed
    time; no easing step is taken. *)
Theorem tick_snaps_on_large_backward_jump (now : R) (st : State) :
  targetRef st - displayRef st < -0.3 ->
  displayRef (tick now st) = targetRef st
  /\ targetRef (tick now st) = targetRef st.
Proof.
  intros Hdiff. split; [| reflexivity].
  rewrite tick_display, tick_dt_display.
  destruct (Rlt_dec (targetRef st - displayRef st) (-0.3)) as [_ | Hn].
  - reflexivity.
  - contradiction.
Qed.

(** With displayed = 0.9 and target = 0.5 one tick yields 0.5. *)
Lemma tick_snaps_on_large_backward_jump_witness :
  let st := {| displayRef := 0.9; targetRef := 0.5; prevDayNumRef := 1;
               dayTransitionRef := None; lastTime := 0 |} in
  0.5 - 0.9 < -0.3 /\ displayRef (tick 16 st) = 0.5.
Proof.
  intros st. split; [lra |].
  apply (tick_snaps_on_large_backward_jump 16 st). simpl. lra.
Defined.

(** C10. In the branch that does not snap, with [dt] in (0, 0.05], the new
    displayed position lies between the previous one and the target, so
    the easing never overshoots; if both were in [[0, 1]] the new position
    is in [[0, 1]] too. *)
Theorem tick_never_overshoots (dt : R) (st : State) :
  0 < dt <= 0.05 ->
  targetRef st - displayRef st >= -0.3 ->
  let d := displayRef st in
  let g := targetRef st in
  let d' := displayRef (tick_dt dt st) in
  Rmin d g <= d' <= Rmax d g
  /\ (0 <= d <= 1 -> 0 <= g <= 1 -> 0 <= d' <= 1).
Proof.
  intros [Hdt _] Hdiff. cbv zeta.
  rewrite tick_dt_display.
  generalize dependent (displayRef st). generalize (targetRef st).
  intros g d Hdiff.
  destruct (ease_step_bounds dt Hdt) as [Hs0 Hs1].
  set (s := 1 - exp (- EASE * dt)) in *.
  assert (Hbetween :
    Rmin d g <=
      (if Rlt_dec (g - d) (-0.3) then g
       else if Rlt_dec (Rabs (g - d)) 0.001 then g else d + (g - d) * s)
    <= Rmax d g).
  { destruct (Rlt_dec (g - d) (-0.3)) as [Hsnap | _]; [lra |].
    unfold Rmin, Rmax.
    destruct (Rlt_dec (Rabs (g - d)) 0.001) as [_ | _];
      destruct (Rle_dec d g) as [Hle | Hgt]; try lra; split; nra. }
  split; [exact Hbetween |].
  intros Hd Hg. revert Hbetween. unfold Rmin, Rmax.
  destruct (Rle_dec d g); lra.
Qed.

Lemma tick_never_overshoots_witness :
  let st := {| displayRef := 0.2; targetRef := 0.6; prevDayNumRef := 1;
               dayTransitionRef := None; lastTime := 0 |} in
  0 < 0.016 <= 0.05
  /\ targetRef st - displayRef st >= -0.3
  /\ Rmin 0.2 0.6 <= displayRef (tick_dt 0.016 st) <= Rmax 0.2 0.6.
Proof.
  intros st.
  split; [lra |]. split; [simpl; lra |].
  apply (tick_never_overshoots 0.016 st); simpl; lra.
Defined.

End TickFacts.

(** ** The day-backward crossfade *)

Section CrossfadeFacts.

Import Anim.

(** What one frame does to the crossfade. *)
Lemma tick_dt_crossfade (dt : R) (st : State) :
  dayTransitionRef (tick_dt dt st) =
  match dayTransitionRef st with
  | Some tr =>
      if Rlt_dec (fade tr) 1 then
        if Rge_dec (Rmin (fade tr + dt * 2.5) 1) 1 then None
        else Some {| fromColor := fromColor tr; fade := Rmin (fade tr + dt * 2.5) 1 |}
      else Some tr
  | None => None
  end.
Proof. unfold tick_dt; simpl. destruct (dayTransitionRef st); reflexivity. Qed.

(** Frames never create a crossfade: without one before, none after. *)
Lemma tick_dt_no_crossfade (dt : R) (st : State) :
  dayTransitionRef st = None -> dayTransitionRef (tick_dt dt st) = None.
Proof. intros H. rewrite tick_dt_crossfade, H. reflexivity. Qed.

Lemma frames_no_crossfade (dts : list R) (st : State) :
  dayTransitionRef st = None ->
  dayTransitionRef (fold_left (fun s d => tick_dt d s) dts st) = None.
Proof.
  revert st. induction dts as [| d rest IH]; intros st H; simpl.
  - exact H.
  - apply IH. now apply tick_dt_no_crossfade.
Qed.

(** C5. While a crossfade is active (its fade below 1), a tick of elapsed
    time [dt] sets its fade to [fade + dt * 2.5] clamped to 1, so the fade
    does not decrease and never exceeds 1; the crossfade is kept, with the
    same colour, when the new fade is below 1 and the reference is set to
    null exactly when the new fade is 1; from then on no frame brings a
    crossfade back. *)
Theorem crossfade_advances_then_is_discarded
    (dt : R) (st : State) (tr : Crossfade) :
  0 <= dt ->
  dayTransitionRef st = Some tr ->
  fade tr < 1 ->
  let fade' := Rmin (fade tr + dt * 2.5) 1 in
  let st' := tick_dt dt st in
  fade tr <= fade' <= 1
  /\ (fade tr + dt * 2.5 <= 1 -> fade' = fade tr + dt * 2.5)
  /\ (fade' < 1 ->
        dayTransitionRef st' = Some {| fromColor := fromColor tr; fade := fade' |})
  /\ (dayTransitionRef st' = None <-> fade' = 1)
  /\ (fade' = 1 ->
        forall dts : list R,
          dayTransitionRef (fold_left (fun s d => tick_dt d s) dts st') = None).
Proof.
  intros Hdt Hsome Hactive. cbv zeta.
  rewrite tick_dt_crossfade, Hsome.
  destruct (Rlt_dec (fade tr) 1) as [_ | Hn]; [| contradiction].
  set (f' := Rmin (fade tr + dt * 2.5) 1).
  assert (Hrange : fade tr <= f' <= 1).
  { unfold f', Rmin. destruct (Rle_dec (fade tr + dt * 2.5) 1); lra. }
  split; [exact Hrange |].
  split.
  { intros Hle. unfold f'. now apply Rmin_left. }
  destruct (Rge_dec f' 1) as [Hge | Hlt].
  - assert (Hone : f' = 1) by lra.
    split; [intros Hlt; lra |].
    split; [split; auto |].
    intros _ dts. apply frames_no_crossfade.
    rewrite tick_dt_crossfade, Hsome.
    destruct (Rlt_dec (fade tr) 1) as [_ | Hn]; [| contradiction].
    fold f'. destruct (Rge_dec f' 1); [reflexivity | contradiction].
  - split; [reflexivity |].
    split; [split; [discriminate | intros He; lra] |].
    intros He; lra.
Qed.

(** A crossfade at fade 0.9 is discarded by a frame of 50ms. *)
Lemma crossfade_advances_then_is_discarded_witness :
  let tr := {| fromColor := [249; 174; 119]%Z; fade := 0.9 |} in
  let st := {| displayRef := 0.95; targetRef := 0.95; prevDayNumRef := 1;
               dayTransitionRef := Some tr; lastTime := 16 |} in
  0 <= 0.05 /\ fade tr < 1
  /\ (dayTransitionRef (tick_dt 0.05 st) = None <-> Rmin (0.9 + 0.05 * 2.5) 1 = 1).
Proof.
  intros tr st.
  split; [lra |]. split; [simpl; lra |].
  apply (crossfade_advances_then_is_discarded 0.05 st tr);
    [lra | reflexivity | simpl; lra].
Defined.

(** C4. When the observed day index is below the previous one, the effect
    sets displayed and target to the new progress at once and creates a
    crossfade with fade 0 and the interpolator's colour at [t = 0]; when
    the day index is above or equal to the previous one, the crossfade
    reference and the displayed position are left as they were. *)
Theorem dayBackward_snaps_and_starts_crossfade
    (dayNumber : Z) (progress : R) (st : State) :
  let st' := dayBackwardEffect dayNumber progress st in
  ((dayNumber < prevDayNumRef st)%Z ->
     displayRef st' = progress
     /\ targetRef st' = progress
     /\ dayTransitionRef st' =
          Some {| fromColor := Color.lerpColors Color.TRACK_RGB 0; fade := 0 |})
  /\ ((prevDayNumRef st <= dayNumber)%Z ->
     dayTransitionRef st' = dayTransitionRef st
     /\ displayRef st' = displayRef st)
  /\ prevDayNumRef st' = dayNumber.
Proof.
  cbv zeta. unfold dayBackwardEffect.
  destruct (Z.eqb_spec dayNumber (prevDayNumRef st)) as [He | Hne].
  - repeat split; try lia; auto.
  - destruct (Z.ltb_spec dayNumber (prevDayNumRef st)) as [Hlt | Hge]; simpl.
    + repeat split; try lia; auto.
    + repeat split; try lia; auto.
Qed.

(** From day 2 at progress 0.05 back to day 1 at progress 0.95. *)
Lemma dayBackward_snaps_and_starts_crossfade_witness :
  let st := {| displayRef := 0.05; targetRef := 0.05; prevDayNumRef := 2;
               dayTransitionRef := None; lastTime := 16 |} in
  let st' := dayBackwardEffect 1 0.95 st in
  displayRef st' = 0.95 /\ targetRef st' = 0.95
  /\ dayTransitionRef st' =
       Some {| fromColor := Color.lerpColors Color.TRACK_RGB 0; fade := 0 |}.
Proof.
  intros st st'.
  apply (dayBackward_snaps_and_starts_crossfade 1 0.95 st). simpl. lia.
Defined.

(** The same through a render, which has stored the target already. *)
Lemma render_day_backward (dayNumber : Z) (progress : R) (st : State) :
  (dayNumber < prevDayNumRef st)%Z ->
  displayRef (render dayNumber progress st) = progress
  /\ targetRef (render dayNumber progress st) = progress.
Proof.
  intros Hlt. unfold render, dayBackwardEffect; simpl.
  destruct (Z.eqb_spec dayNumber (prevDayNumRef st)) as [He | Hne]; [lia |].
  destruct (Z.ltb_spec dayNumber (prevDayNumRef st)) as [_ | Hge]; [| lia].
  now split.
Qed.

End CrossfadeFacts.

(** ** Convergence of the easing from 0 to 0.5 in frames of 16ms *)

Section EasingConvergence.

Import Anim.

Lemma exp_nat_pow (x : R) (n : nat) : exp (INR n * x) = exp x ^ n.
Proof.
  induction n as [| n IH].
  - simpl. rewrite Rmult_0_l. apply exp_0.
  - rewrite S_INR, Rmult_plus_distr_r, Rmult_1_l, exp_plus, IH. simpl. ring.
Qed.

Lemma pow_antitone (x : R) (m n : nat) :
  0 <= x <= 1 -> (m <= n)%nat -> x ^ n <= x ^ m.
Proof.
  intros Hx Hmn. induction Hmn as [| n Hmn IH].
  - lra.
  - simpl. pose proof (pow_le x n (proj1 Hx)). nra.
Qed.

(** Rational bounds on [exp(-0.192)], from [1 + y <= exp y] at
    [y = -0.012] (sixteen times) and at [y = 0.024] (eight times). *)
Lemma q16_bounds : 0.8243 <= q16 <= 0.8272.
Proof.
  unfold q16, EASE. split.
  - replace (- (12) * 0.016) with (INR 16 * (- 0.012)) by (simpl; lra).
    rewrite exp_nat_pow.
    apply Rle_trans with (0.988 ^ 16); [lra |].
    apply pow_incr. split; [lra |].
    pose proof (exp_ineq1_le (- 0.012)). lra.
  - assert (Hinv : exp (- (12) * 0.016) * exp (INR 8 * 0.024) = 1).
    { rewrite <- exp_plus, <- exp_0. f_equal. simpl. lra. }
    rewrite exp_nat_pow in Hinv.
    assert (Hlow : 1.024 ^ 8 <= exp 0.024 ^ 8).
    { apply pow_incr. pose proof (exp_ineq1_le 0.024). lra. }
    assert (Hnum : 1.2089 <= 1.024 ^ 8) by lra.
    pose proof (exp_pos (- (12) * 0.016)) as Hpos.
    nra.
Qed.

Lemma q16_unit : 0 < q16 < 1.
Proof. pose proof q16_bounds. lra. Qed.

Lemma q16_pow_lower (n : nat) : (n <= 32)%nat -> 0.002 <= q16 ^ n.
Proof.
  intros Hn.
  apply Rle_trans with (q16 ^ 32).
  - apply Rle_trans with (0.8243 ^ 32); [lra |].
    apply pow_incr. pose proof q16_bounds. lra.
  - apply pow_antitone; [pose proof q16_unit; lra | exact Hn].
Qed.

Lemma q16_pow_upper (n : nat) : (33 <= n)%nat -> q16 ^ n < 0.002.
Proof.
  intros Hn.
  apply Rle_lt_trans with (q16 ^ 33).
  - apply pow_antitone; [pose proof q16_unit; lra | exact Hn].
  - apply Rle_lt_trans with (0.8272 ^ 33); [| lra].
    apply pow_incr. pose proof q16_bounds. lra.
Qed.

Lemma q16_pow_pos (n : nat) : 0 < q16 ^ n.
Proof. apply pow_lt. apply q16_unit. Qed.

Variable st : State.
Hypothesis start_display : displayRef st = 0.
Hypothesis start_target : targetRef st = 0.5.

Lemma ticks_target (n : nat) : targetRef (ticks 0.016 n st) = 0.5.
Proof.
  induction n as [| n IH]; [exact start_target |].
  unfold ticks in *. rewrite Nat.iter_succ. now rewrite tick_dt_target.
Qed.

Lemma d_step (n : nat) :
  displayed16 (S n) st =
  if Rlt_dec (0.5 - displayed16 n st) (-0.3) then 0.5
  else if Rlt_dec (Rabs (0.5 - displayed16 n st)) 0.001 then 0.5
  else displayed16 n st + (0.5 - displayed16 n st) * (1 - q16).
Proof.
  unfold displayed16, ticks. rewrite Nat.iter_succ.
  rewrite tick_dt_display.
  fold (ticks 0.016 n st). rewrite ticks_target. reflexivity.
Qed.

(** Up to frame 33 every frame eases: the distance left is [0.5 * q16 ^ n]. *)
Lemma d_closed_form (n : nat) : (n <= 33)%nat -> displayed16 n st = 0.5 * (1 - q16 ^ n).
Proof.
  induction n as [| n IH]; intros Hn.
  - unfold displayed16, ticks. simpl. rewrite start_display. lra.
  - rewrite d_step, IH by lia.
    assert (Hlow : 0.002 <= q16 ^ n) by (apply q16_pow_lower; lia).
    destruct (Rlt_dec (0.5 - 0.5 * (1 - q16 ^ n)) (-0.3)) as [Hs | _]; [lra |].
    destruct (Rlt_dec (Rabs (0.5 - 0.5 * (1 - q16 ^ n))) 0.001) as [Hs | _].
    + apply Rabs_lt_bounds in Hs. lra.
    + simpl. ring.
Qed.

Lemma d_settled (n : nat) : (34 <= n)%nat -> displayed16 n st = 0.5.
Proof.
  intros Hn. induction Hn as [| n Hn IH].
  - rewrite d_step, d_closed_form by lia.
    assert (Hup : q16 ^ 33 < 0.002) by (apply q16_pow_upper; lia).
    pose proof (q16_pow_pos 33) as Hpos.
    destruct (Rlt_dec (0.5 - 0.5 * (1 - q16 ^ 33)) (-0.3)) as [_ | _]; [reflexivity |].
    destruct (Rlt_dec (Rabs (0.5 - 0.5 * (1 - q16 ^ 33))) 0.001) as [_ | Hs];
      [reflexivity |].
    exfalso. apply Hs. apply Rabs_lt_bounds. lra.
  - rewrite d_step, IH.
    destruct (Rlt_dec (0.5 - 0.5) (-0.3)) as [_ | _]; [reflexivity |].
    destruct (Rlt_dec (Rabs (0.5 - 0.5)) 0.001) as [_ | Hs]; [reflexivity |].
    exfalso. apply Hs. apply Rabs_lt_bounds. lra.
Qed.

Lemma d_below_target (n : nat) : (n <= 33)%nat -> 0.5 - displayed16 n st = 0.5 * q16 ^ n.
Proof. intros Hn. rewrite d_closed_form by exact Hn. ring. Qed.

(** C2, amended. From displayed = 0 with the target held at 0.5, frames of
    16ms each move the displayed position by [diff * (1 - e^(-12 dt))] for
    the first 33 frames; the position increases strictly and stays below
    the target until frame 34, which sets it to the target exactly, where
    it remains; the distance to the target is below 0.001 from frame 33
    on (528ms) and not before. *)
Theorem easing_settles_at_frame_34 :
  (forall n : nat, (n < 33)%nat ->
     displayed16 (S n) st =
     displayed16 n st + (0.5 - displayed16 n st) * (1 - exp (- EASE * 0.016)))
  /\ (forall n : nat, (n < 34)%nat ->
        displayed16 n st < displayed16 (S n) st <= 0.5)
  /\ (forall n : nat, (n < 34)%nat -> displayed16 n st <> 0.5)
  /\ (forall n : nat, (34 <= n)%nat -> displayed16 n st = 0.5)
  /\ (forall n : nat, Rabs (0.5 - displayed16 n st) < 0.001 <-> (33 <= n)%nat).
Proof.
  pose proof q16_unit as Hq.
  assert (Hbelow : forall n : nat, (n < 34)%nat -> displayed16 n st < 0.5).
  { intros n Hn. pose proof (d_below_target n ltac:(lia)) as Hd.
    pose proof (q16_pow_pos n). lra. }
  split; [| split; [| split; [| split]]].
  - intros n Hn. rewrite !d_closed_form by lia. fold q16. simpl. ring.
  - intros n Hn. destruct (Nat.eq_dec n 33) as [-> | Hne].
    + rewrite (d_settled 34) by lia. specialize (Hbelow 33%nat ltac:(lia)). lra.
    + rewrite !d_closed_form by lia. simpl.
      pose proof (q16_pow_pos n). split; nra.
  - intros n Hn. specialize (Hbelow n Hn). lra.
  - exact d_settled.
  - intros n. split.
    + intros Habs. destruct (le_lt_dec 33 n) as [Hge | Hlt]; [exact Hge |].
      exfalso. rewrite d_below_target in Habs by lia.
      apply Rabs_lt_bounds in Habs.
      pose proof (q16_pow_lower n ltac:(lia)). lra.
    + intros Hge. apply Rabs_lt_bounds.
      destruct (Nat.eq_dec n 33) as [-> | Hne].
      * rewrite d_below_target by lia.
        pose proof (q16_pow_upper 33 ltac:(lia)). pose proof (q16_pow_pos 33). lra.
      * rewrite d_settled by lia. lra.
Qed.

End EasingConvergence.

(** The start of the testable property: displayed 0, target 0.5. *)
Lemma easing_settles_at_frame_34_witness :
  let st := Anim.render 1 0.5 (Anim.mount 1 0) in
  Anim.displayRef st = 0 /\ Anim.targetRef st = 0.5
  /\ Anim.displayed16 34 st = 0.5.
Proof.
  intros st. split; [reflexivity |]. split; [reflexivity |].
  apply (easing_settles_at_frame_34 st eq_refl eq_refl). lia.
Defined.

(** C2 as stated fails on the time: after 25 frames of 16ms (400ms) the
    displayed position is not the target, and is still more than 0.003
    short of it, so not within 0.001 either. *)
Lemma easing_not_settled_after_400ms :
  let st := Anim.render 1 0.5 (Anim.mount 1 0) in
  Anim.displayed16 25 st <> 0.5
  /\ 0.5 - Anim.displayed16 25 st > 0.003
  /\ ~ Rabs (0.5 - Anim.displayed16 25 st) < 0.001.
Proof.
  intros st.
  pose proof (d_below_target st eq_refl eq_refl 25 ltac:(lia)) as Hd.
  assert (Hpow : 0.0079 <= Anim.q16 ^ 25).
  { apply Rle_trans with (0.8243 ^ 25); [lra |].
    apply pow_incr. pose proof q16_bounds. lra. }
  assert (Hgap : 0.5 - Anim.displayed16 25 st > 0.003) by lra.
  split; [lra |]. split; [exact Hgap |].
  intros Habs. apply Rabs_lt_bounds in Habs. lra.
Qed.

(** ** The path sampler *)

Section SamplerFacts.

Import Sampler.

(** The number of samples is [n + 1] for [n = ceil(length / 1.4)]. *)
Lemma samplePoints_length (path : SVGPath) :
  List.length (samplePoints path)
  = Z.to_nat (Math_ceil (getTotalLength path / 1.4) + 1).
Proof. unfold samplePoints. now rewrite length_map, length_seq. Qed.









End SamplerFacts.

(** ** The label transition machine *)

Section LabelFacts.

Import Label.

Lemma set_now_same (st : State) : set_now (now st) st = st.
Proof. now destruct st. Qed.

Lemma elapse_plus (a b : nat) (st : State) :
  elapse (a + b) st = elapse b (elapse a st).
Proof. revert st. induction a as [| a IH]; intros st; simpl; [reflexivity | apply IH]. Qed.

Lemma elapse_succ (k : nat) (st : State) : elapse (S k) st = advance1 (elapse k st).
Proof. replace (S k) with (k + 1)%nat by lia. now rewrite elapse_plus. Qed.

Lemma filter_none {A : Type} (f : A -> bool) (l : list A) :
  (forall a : A, In a l -> f a = false) -> filter f l = [].
Proof.
  induction l as [| a l IH]; intros H; simpl; [reflexivity |].
  rewrite (H a) by now left. apply IH. intros b Hb. apply H. now right.
Qed.

(** While no timer is due, time passes and nothing else changes. *)
Lemma advance1_quiet (st : State) :
  (forall tm : timer, In tm (timers st) -> (S (now st) < due tm)%nat) ->
  advance1 st = set_now (S (now st)) st.
Proof.
  intros Hq. unfold advance1. cbv zeta.
  rewrite filter_none; [reflexivity |].
  intros tm Htm. simpl in *. apply Nat.leb_gt. now apply Hq.
Qed.

Lemma elapse_quiet (k : nat) (st : State) :
  (forall tm : timer, In tm (timers st) -> (now st + k < due tm)%nat) ->
  elapse k st = set_now (now st + k) st.
Proof.
  revert st. induction k as [| k IH]; intros st Hq.
  - simpl. now rewrite Nat.add_0_r, set_now_same.
  - simpl. rewrite advance1_quiet by (intros tm Htm; specialize (Hq tm Htm); lia).
    rewrite IH.
    + destruct st; simpl. unfold set_now; simpl. f_equal. lia.
    + intros tm Htm. simpl in *. specialize (Hq tm Htm). lia.
Qed.

(** The only pending timer is due at the next millisecond: it fires. *)
Lemma advance1_single (st : State) (tm : timer) :
  timers st = [tm] -> due tm = S (now st) ->
  advance1 st = fire (action tm) (clearTimeout (tid tm) (set_now (S (now st)) st)).
Proof.
  intros Ht Hd. unfold advance1. cbv zeta. simpl. rewrite Ht. simpl.
  rewrite Hd, Nat.leb_refl. simpl.
  unfold fire_due. simpl. rewrite Ht. simpl. now rewrite Nat.eqb_refl.
Qed.

(** The ref holds the day of the last render. *)
Lemma prevDayRef_render (d : Z) (dist : string) (st : State) :
  prevDayRef st = dayNumber st ->
  prevDayRef (render d dist st) = dayNumber (render d dist st)
  /\ dayNumber (render d dist st) = d.
Proof.
  destruct st as [dn di ph dd ddist pdr ec nw tms nid]; simpl. intros ->.
  unfold render, rerender, distanceEffect, labelEffect, runCleanup; simpl.
  destruct (Z.eqb_spec d dn) as [He | Hne]; simpl.
  - destruct (String.eqb dist di); simpl; [now split |].
    destruct ec; simpl; rewrite He, Z.eqb_refl; simpl;
      repeat match goal with
        | |- context [if ?c then _ else _] => destruct c; simpl
        end; now split.
  - destruct ec; simpl;
      (destruct (Z.eqb_spec d dn); [contradiction |]); simpl;
      repeat match goal with
        | |- context [if ?c then _ else _] => destruct c; simpl
        end; now split.
Qed.

(** Timers change neither the props nor the ref. *)
Lemma fire_due_props (st : State) (tm : timer) :
  dayNumber (fire_due st tm) = dayNumber st
  /\ distance (fire_due st tm) = distance st
  /\ prevDayRef (fire_due st tm) = prevDayRef st.
Proof.
  destruct st as [dn di ph dd ddist pdr ec nw tms nid].
  unfold fire_due; simpl.
  destruct (existsb _ tms); simpl; [| now repeat split].
  destruct (action tm); unfold fire, rerender, distanceEffect; simpl;
    repeat match goal with
      | |- context [if ?c then _ else _] => destruct c; simpl
      end; now repeat split.
Qed.

Lemma fold_fire_due_props (tms : list timer) (st : State) :
  dayNumber (fold_left fire_due tms st) = dayNumber st
  /\ distance (fold_left fire_due tms st) = distance st
  /\ prevDayRef (fold_left fire_due tms st) = prevDayRef st.
Proof.
  revert st. induction tms as [| tm rest IH]; intros st; simpl; [now repeat split |].
  destruct (IH (fire_due st tm)) as (H1 & H2 & H3).
  destruct (fire_due_props st tm) as (G1 & G2 & G3).
  repeat split; congruence.
Qed.

Lemma elapse_props (ms : nat) (st : State) :
  dayNumber (elapse ms st) = dayNumber st
  /\ distance (elapse ms st) = distance st
  /\ prevDayRef (elapse ms st) = prevDayRef st.
Proof.
  revert st. induction ms as [| k IH]; intros st; simpl; [now repeat split |].
  destruct (IH (advance1 st)) as (H1 & H2 & H3).
  unfold advance1 in *. cbv zeta in *.
  destruct (fold_fire_due_props
              (filter (fun tm => Nat.leb (due tm) (now (set_now (S (now st)) st)))
                      (timers (set_now (S (now st)) st)))
              (set_now (S (now st)) st)) as (G1 & G2 & G3).
  simpl in *. repeat split; congruence.
Qed.

Lemma reachable_prevDayRef (st : State) :
  reachable st -> prevDayRef st = dayNumber st.
Proof.
  induction 1 as [d dist | d dist st _ IH | ms st _ IH].
  - reflexivity.
  - now apply prevDayRef_render.
  - destruct (elapse_props ms st) as (H1 & _ & H3). congruence.
Qed.

(** A day change seen at rest: the exit phase starts and its timer is the
    only one pending. *)
Lemma render_day_change (d : Z) (dist : string) (st : State) :
  at_rest st -> d <> dayNumber st ->
  render d dist st =
  {| dayNumber := d; distance := dist;
     textPhase := exiting; displayDay := displayDay st;
     displayDist := displayDist st; prevDayRef := d;
     exitCleanup := Some (nextId st);
     now := now st;
     timers := [ {| tid := nextId st; due := now st + 240; action := exitDone d dist |} ];
     nextId := S (nextId st) |}.
Proof.
  destruct st as [dn di ph dd ddist pdr ec nw tms nid].
  intros (Hph & Hdd & Hpdr & Htms) Hne. simpl in *. subst.
  unfold render, rerender, distanceEffect, labelEffect, runCleanup; simpl.
  destruct (Z.eqb_spec d dn) as [He | _]; [contradiction |]. simpl.
  destruct ec; simpl;
    (destruct (Z.eqb_spec d dn) as [He | _]; [contradiction |]); simpl;
    (destruct (Z.eqb_spec d dn) as [He | _]; [contradiction |]); reflexivity.
Qed.

(** The exit timer fires: the label is swapped to the props its callback
    captured, the enter phase starts and its timer is pending. *)
Lemma exit_timer_fires (st : State) (id : nat) (d : Z) (dist : string) :
  textPhase st = exiting ->
  timers st = [ {| tid := id; due := S (now st); action := exitDone d dist |} ] ->
  advance1 st =
  {| dayNumber := dayNumber st; distance := distance st;
     textPhase := entering; displayDay := d; displayDist := dist;
     prevDayRef := prevDayRef st; exitCleanup := exitCleanup st;
     now := S (now st);
     timers := [ {| tid := nextId st; due := S (now st) + 280; action := enterDone |} ];
     nextId := S (nextId st) |}.
Proof.
  intros Hph Ht.
  rewrite (advance1_single st _ Ht eq_refl).
  destruct st as [dn di ph dd ddist pdr ec nw tms nid]. simpl in *. subst.
  unfold fire, clearTimeout, rerender, distanceEffect; simpl.
  rewrite Nat.eqb_refl. simpl. reflexivity.
Qed.

(** The enter timer fires: the machine is idle again and shows the
    current distance. *)
Lemma enter_timer_fires (st : State) (id : nat) :
  textPhase st = entering ->
  displayDay st = dayNumber st ->
  timers st = [ {| tid := id; due := S (now st); action := enterDone |} ] ->
  advance1 st =
  {| dayNumber := dayNumber st; distance := distance st;
     textPhase := idle; displayDay := displayDay st; displayDist := distance st;
     prevDayRef := prevDayRef st; exitCleanup := exitCleanup st;
     now := S (now st); timers := []; nextId := nextId st |}.
Proof.
  intros Hph Hdd Ht.
  rewrite (advance1_single st _ Ht eq_refl).
  destruct st as [dn di ph dd ddist pdr ec nw tms nid]. simpl in *. subst.
  unfold fire, clearTimeout, rerender, distanceEffect; simpl.
  rewrite Nat.eqb_refl, Z.eqb_refl. simpl. reflexivity.
Qed.

(** The transition from rest.  A day change seen by the machine at rest
    (idle, nothing pending) and followed by no other update: the phase is
    exiting at once and the label keeps the old day and distance for the
    next 240ms; at 240ms the label is swapped to the new day and distance
    and the phase is entering; at 520ms the phase is idle again, the
    machine at rest. *)
Theorem label_transition_timing (st : State) (d : Z) (dist : string) :
  at_rest st ->
  d <> dayNumber st ->
  let st0 := render d dist st in
  (forall k : nat, (k < 240)%nat ->
     textPhase (elapse k st0) = exiting
     /\ displayDay (elapse k st0) = displayDay st
     /\ displayDist (elapse k st0) = displayDist st)
  /\ (forall k : nat, (240 <= k < 520)%nat ->
     textPhase (elapse k st0) = entering
     /\ displayDay (elapse k st0) = d
     /\ displayDist (elapse k st0) = dist)
  /\ (forall k : nat, (520 <= k)%nat ->
     at_rest (elapse k st0)
     /\ displayDay (elapse k st0) = d
     /\ displayDist (elapse k st0) = dist).
Proof.
  intros Hrest Hne st0.
  assert (E0 : forall k : nat, (k < 240)%nat ->
            elapse k st0 = set_now (now st + k) st0).
  { intros k Hk. subst st0. rewrite render_day_change by assumption.
    rewrite elapse_quiet; [reflexivity |].
    simpl. intros tm [<- | []]. simpl. lia. }
  assert (E240 : elapse 240 st0 =
            {| dayNumber := d; distance := dist;
               textPhase := entering; displayDay := d; displayDist := dist;
               prevDayRef := d; exitCleanup := Some (nextId st);
               now := now st + 240;
               timers := [ {| tid := S (nextId st); due := now st + 520;
                              action := enterDone |} ];
               nextId := S (S (nextId st)) |}).
  { rewrite (elapse_succ 239), E0 by lia.
    subst st0. rewrite render_day_change by assumption.
    rewrite (exit_timer_fires _ (nextId st) d dist).
    - simpl. f_equal; try lia. f_equal. f_equal. lia.
    - reflexivity.
    - simpl. do 2 f_equal. lia. }
  assert (E1 : forall j : nat, (j < 280)%nat ->
            elapse (240 + j) st0 = set_now (now st + 240 + j) (elapse 240 st0)).
  { intros j Hj. rewrite elapse_plus, E240.
    rewrite elapse_quiet; [reflexivity |].
    simpl. intros tm [<- | []]. simpl. lia. }
  assert (E520 : elapse 520 st0 =
            {| dayNumber := d; distance := dist;
               textPhase := idle; displayDay := d; displayDist := dist;
               prevDayRef := d; exitCleanup := Some (nextId st);
               now := now st + 520; timers := [];
               nextId := S (S (nextId st)) |}).
  { rewrite (elapse_succ 519).
    replace 519%nat with (240 + 279)%nat by reflexivity.
    rewrite E1, E240 by lia.
    rewrite (enter_timer_fires _ (S (nextId st))).
    - simpl. f_equal. lia.
    - reflexivity.
    - reflexivity.
    - simpl. do 2 f_equal. lia. }
  split; [| split].
  - intros k Hk. rewrite E0 by exact Hk.
    subst st0. rewrite render_day_change by assumption. now repeat split.
  - intros k Hk.
    replace k with (240 + (k - 240))%nat by lia.
    rewrite E1, E240 by lia. now repeat split.
  - intros k Hk.
    replace k with (520 + (k - 520))%nat by lia.
    rewrite elapse_plus, E520.
    rewrite elapse_quiet by (simpl; intros tm []).
    unfold at_rest. simpl. now repeat split.
Qed.

(** The day goes from 1 to 2 on a freshly mounted label. *)
Lemma label_transition_timing_witness :
  let st := mount 1 "152.7km" in
  let st0 := render 2 "98.4km" st in
  at_rest st /\ 2%Z <> dayNumber st
  /\ textPhase (elapse 0 st0) = exiting
  /\ displayDay (elapse 239 st0) = 1%Z
  /\ textPhase (elapse 240 st0) = entering
  /\ displayDay (elapse 240 st0) = 2%Z
  /\ textPhase (elapse 520 st0) = idle.
Proof.
  intros st st0.
  assert (Hrest : at_rest st) by (unfold at_rest; now repeat split).
  assert (Hne : 2%Z <> dayNumber st) by (simpl; lia).
  destruct (label_transition_timing st 2 "98.4km" Hrest Hne) as (Hexit & Henter & Hidle).
  split; [exact Hrest |]. split; [exact Hne |].
  split; [apply (Hexit 0%nat); lia |].
  split; [apply (Hexit 239%nat); lia |].
  split; [apply (Henter 240%nat); lia |].
  split; [apply (Henter 240%nat); lia |].
  apply (Hidle 520%nat). lia.
Defined.

(** C9. While the machine is idle and the day index is the displayed
    day, a render that changes only the distance sets the displayed
    distance to the new value at once; the phase stays idle, the displayed
    day is kept and no timer is scheduled. *)
Theorem distance_only_update (st : State) (dist : string) :
  reachable st ->
  textPhase st = idle ->
  dayNumber st = displayDay st ->
  dist <> distance st ->
  let st' := render (dayNumber st) dist st in
  displayDist st' = dist
  /\ textPhase st' = idle
  /\ displayDay st' = displayDay st
  /\ (forall tm : timer, In tm (timers st') -> In tm (timers st))
  /\ nextId st' = nextId st.
Proof.
  intros Hreach Hph Hday Hdist.
  pose proof (reachable_prevDayRef st Hreach) as Hprev.
  destruct st as [dn di ph dd ddist pdr ec nw tms nid]. simpl in *. subst.
  unfold render, rerender, distanceEffect, labelEffect, runCleanup; simpl.
  rewrite Z.eqb_refl.
  destruct (String.eqb_spec dist di) as [He | _]; [contradiction |]. simpl.
  destruct ec as [id |]; simpl; rewrite !Z.eqb_refl; simpl;
    repeat split; auto.
  intros tm Htm. apply filter_In in Htm. tauto.
Qed.

(** The distance of day 1 is updated on a freshly mounted label. *)
Lemma distance_only_update_witness :
  let st := mount 1 "152.7km" in
  let st' := render 1 "153.0km" st in
  displayDist st' = "153.0km"%string /\ textPhase st' = idle.
Proof.
  intros st st'.
  assert (Hne : "153.0km"%string <> distance st) by discriminate.
  destruct (distance_only_update st "153.0km" (reachable_mount 1 "152.7km")
              eq_refl eq_refl Hne) as (H1 & H2 & _).
  split; [exact H1 | exact H2].
Defined.

(** C6, on the code.  The phase can be idle while an enter timer of an
    earlier cycle is still pending, because enter timers are never
    cleared.  Day 1 becomes day 2 at 0ms and day 3 at 250ms: at 520ms the
    enter timer of the first cycle has put the phase to idle, the label
    shows day 3, and the enter timer of the second cycle is pending, due
    at 770ms.  A change to day 4 seen in this idle state starts the exit
    phase at once and swaps the label after 240ms, but the phase is back
    to idle 250ms after the change, when the pending timer fires, 10ms
    into the enter phase, and not after 520ms. *)
Theorem transition_from_idle_cut_short_by_pending_enter_timer :
  let s := elapse 270 (render 3 "120.0km"
             (elapse 250 (render 2 "98.4km" (mount 1 "152.7km")))) in
  let s' := render 4 "87.3km" s in
  (textPhase s = idle /\ displayDay s = 3%Z /\ dayNumber s = 3%Z
   /\ timers s = [ {| tid := 4; due := 770; action := enterDone |} ])
  /\ textPhase s' = exiting
  /\ textPhase (elapse 239 s') = exiting
  /\ displayDay (elapse 239 s') = 3%Z
  /\ textPhase (elapse 240 s') = entering
  /\ displayDay (elapse 240 s') = 4%Z
  /\ textPhase (elapse 249 s') = entering
  /\ textPhase (elapse 250 s') = idle
  /\ textPhase (elapse 519 s') = idle.
Proof. vm_compute. repeat split; reflexivity. Qed.

(** C7, on the code.  Day 1 becomes day 2 at 0ms and day 3 at 300ms,
    during the enter phase of the first change.  The enter timer of the
    first cycle (due at 520ms) is still pending after the second exit
    phase has started, although the exit timer before it was cleared; at
    520ms it fires and puts the phase back to idle, with the label of day
    2, 20ms before the exit timer of the second cycle is due.  The same
    timer is left pending by a teardown at 300ms. *)
Theorem stale_enter_timer_fires_in_new_exit_phase :
  let s1 := render 2 "98.4km" (mount 1 "152.7km") in
  let s2 := elapse 300 s1 in
  let s3 := render 3 "120.0km" s2 in
  let stale := {| tid := 2; due := 520; action := enterDone |} in
  timers s2 = [stale]
  /\ textPhase s3 = exiting
  /\ timers s3 = [stale; {| tid := 3; due := 540; action := exitDone 3 "120.0km" |}]
  /\ textPhase (elapse 219 s3) = exiting
  /\ textPhase (elapse 220 s3) = idle
  /\ displayDay (elapse 220 s3) = 2%Z
  /\ timers (elapse 220 s3) = [ {| tid := 3; due := 540; action := exitDone 3 "120.0km" |} ]
  /\ timers (unmount s2) = [stale].
Proof. vm_compute. repeat split; reflexivity. Qed.

End LabelFacts.

(** * Further properties of the code *)

(** ** The colour interpolator: range and window edges *)

Section ColorRange.

Import Color.

Lemma Math_round_between (x : R) (lo hi : Z) :
  IZR lo <= x <= IZR hi -> (lo <= Math_round x <= hi)%Z.
Proof.
  intros [Hlo Hhi]. unfold Math_round.
  destruct (base_Int_part (x + 0.5)) as [Hfl Hfr].
  split.
  - apply Z.lt_succ_r. apply lt_IZR. rewrite succ_IZR. lra.
  - apply Z.lt_succ_r. apply lt_IZR. rewrite succ_IZR. lra.
Qed.

Lemma smoothstep_unit (f : R) : 0 <= f <= 1 -> 0 <= smoothstep f <= 1.
Proof.
  intros [H0 H1]. unfold smoothstep. split.
  - apply Rmult_le_pos; [apply Rmult_le_pos; lra | lra].
  - assert (H : 0 <= (1 - f) * (1 - f) * (1 + 2 * f)).
    { apply Rmult_le_pos; [apply Rmult_le_pos; lra | lra]. }
    lra.
Qed.

(** A channel of a blend of weight in [[0, 1]] is in 0..255 when the
    channels blended are. *)
Lemma blend_channel_range (v w : Z) (s : R) :
  (0 <= v <= 255)%Z -> (0 <= w <= 255)%Z -> 0 <= s <= 1 ->
  (0 <= Math_round (IZR v + (IZR w - IZR v) * s) <= 255)%Z.
Proof.
  intros [Hv0 Hv1] [Hw0 Hw1] [Hs0 Hs1].
  apply Math_round_between.
  apply IZR_le in Hv0, Hv1, Hw0, Hw1.
  split; nra.
Qed.

Lemma nth_rgb_color (c : color) (k : nat) :
  Forall (fun v => (0 <= v <= 255)%Z) c -> (0 <= nth k c 0 <= 255)%Z.
Proof.
  intros Hc. destruct (Nat.lt_ge_cases k (List.length c)) as [Hk | Hk].
  - rewrite Forall_forall in Hc. apply Hc. now apply nth_In.
  - rewrite nth_overflow by exact Hk. lia.
Qed.

Lemma mapi_from_length {A B : Type} (f : A -> nat -> B) (xs : list A) (k : nat) :
  List.length (mapi_from k f xs) = List.length xs.
Proof.
  revert k. induction xs as [| a xs IH]; intros k; simpl; [reflexivity | now rewrite IH].
Qed.

Lemma blend_rgb_color (from to : color) (s : R) :
  rgb_color from -> rgb_color to -> 0 <= s <= 1 -> rgb_color (blend from to s).
Proof.
  intros [Hlen Hfrom] [_ Hto] Hs. unfold rgb_color, blend, mapi. split.
  - now rewrite mapi_from_length.
  - clear Hlen. generalize 0%nat.
    induction Hfrom as [| v rest Hv _ IH]; intros k; simpl; constructor.
    + apply blend_channel_range; [exact Hv | now apply nth_rgb_color | exact Hs].
    + apply IH.
Qed.

Lemma nth_rgb_palette (p : palette) (b : nat) :
  rgb_palette p -> (b < 4)%nat -> rgb_color (nth b p []).
Proof.
  intros [Hlen Hp] Hb. rewrite Forall_forall in Hp.
  apply Hp. apply nth_In. lia.
Qed.

(** The result of [lerpColors] is an entry of the palette or a blend of
    two adjacent entries with a weight in [[0, 1]]. *)
Lemma lerpColors_cases (p : palette) (t : R) :
  (exists b : nat, (b < 4)%nat /\ lerpColors p t = nth b p [])
  \/ (exists (b : nat) (s : R),
        (b < 3)%nat /\ 0 <= s <= 1
        /\ lerpColors p t = blend (nth b p []) (nth (b + 1) p []) s).
Proof.
  assert (Hwin : forall (b : nat) (bd : R),
            (b < 3)%nat -> bd = nth b boundaries 0 ->
            bd - 0.035 < t <= bd + 0.035 ->
            exists (b' : nat) (s : R),
              (b' < 3)%nat /\ 0 <= s <= 1
              /\ lerpColors p t = blend (nth b' p []) (nth (b' + 1) p []) s).
  { intros b bd Hb Hbd Ht.
    exists b, (smoothstep ((t - (bd - 0.035)) / 0.07)).
    split; [exact Hb |]. split.
    - apply smoothstep_unit. split.
      + apply Rmult_le_pos; lra.
      + apply Rmult_le_reg_r with 0.07; [lra |].
        unfold Rdiv. rewrite Rmult_assoc, Rinv_l by lra. lra.
    - now apply lerpColors_window. }
  destruct (Rle_dec t (0.25 - 0.035)) as [H1 | H1].
  { left. exists 0%nat. split; [lia | now apply lerpColors_first]. }
  destruct (Rle_dec t (0.25 + 0.035)) as [H2 | H2].
  { right. apply (Hwin 0%nat 0.25); [lia | reflexivity | lra]. }
  destruct (Rle_dec t (0.5 - 0.035)) as [H3 | H3].
  { left. exists 1%nat. split; [lia | apply lerpColors_band1; lra]. }
  destruct (Rle_dec t (0.5 + 0.035)) as [H4 | H4].
  { right. apply (Hwin 1%nat 0.5); [lia | reflexivity | lra]. }
  destruct (Rle_dec t (0.75 - 0.035)) as [H5 | H5].
  { left. exists 2%nat. split; [lia | apply lerpColors_band2; lra]. }
  destruct (Rle_dec t (0.75 + 0.035)) as [H6 | H6].
  { right. apply (Hwin 2%nat 0.75); [lia | reflexivity | lra]. }
  left. exists 3%nat. split; [lia | apply lerpColors_last; lra].
Qed.

(** X1. On a palette of four RGB colours, [lerpColors] returns an RGB
    colour for every [t]: three channels, each an integer of 0..255, also
    inside the transition windows, where the channels are rounded blends. *)
Theorem lerpColors_is_rgb (p : palette) (t : R) :
  rgb_palette p -> rgb_color (lerpColors p t).
Proof.
  intros Hp.
  destruct (lerpColors_cases p t) as [(b & Hb & ->) | (b & s & Hb & Hs & ->)].
  - now apply nth_rgb_palette.
  - apply blend_rgb_color; [apply nth_rgb_palette | apply nth_rgb_palette |]; auto; lia.
Qed.

Lemma TRACK_RGB_palette : rgb_palette TRACK_RGB.
Proof.
  unfold rgb_palette, rgb_color, TRACK_RGB. split; [reflexivity |].
  repeat constructor; simpl; lia.
Qed.

Lemma BG_RGB_palette : rgb_palette BG_RGB.
Proof.
  unfold rgb_palette, rgb_color, BG_RGB. split; [reflexivity |].
  repeat constructor; simpl; lia.
Qed.

Lemma lerpColors_is_rgb_witness : rgb_color (lerpColors TRACK_RGB 0.27).
Proof. apply (lerpColors_is_rgb TRACK_RGB 0.27). exact TRACK_RGB_palette. Defined.

Lemma mapi_from_round_to (to from : color) (k : nat) :
  List.length from = List.length (skipn k to) ->
  mapi_from k (fun v j => Math_round (IZR v + (IZR (nth j to 0%Z) - IZR v) * 1)) from
  = skipn k to.
Proof.
  revert k. induction from as [| v rest IH]; intros k Hlen; simpl in *.
  - symmetry. now apply length_zero_iff_nil.
  - destruct (skipn k to) as [| w tl] eqn:Hsk; [discriminate |].
    assert (Hw : nth k to 0%Z = w).
    { rewrite <- (firstn_skipn k to) at 1. rewrite Hsk.
      assert (Hk : (k <= List.length to)%nat).
      { destruct (Nat.le_gt_cases k (List.length to)) as [H | H]; [exact H |].
        rewrite skipn_all2 in Hsk by lia. discriminate. }
      rewrite app_nth2; rewrite length_firstn, Nat.min_l by exact Hk; [| lia].
      now rewrite Nat.sub_diag. }
    assert (Htl : skipn (S k) to = tl).
    { replace (S k) with (1 + k)%nat by lia.
      rewrite <- skipn_skipn, Hsk. reflexivity. }
    rewrite IH by (rewrite Htl; simpl in Hlen; lia).
    rewrite Hw, Htl. f_equal.
    replace (IZR v + (IZR w - IZR v) * 1) with (IZR w) by lra.
    apply Math_round_IZR.
Qed.

(** A blend of weight 1 is the second colour. *)
Lemma blend_1 (from to : color) (s : R) :
  List.length from = List.length to -> s = 1 -> blend from to s = to.
Proof.
  intros Hlen ->. unfold blend, mapi.
  now rewrite mapi_from_round_to.
Qed.

(** X2. The windows join the bands without a jump: on a palette of RGB
    colours, at the lower edge [boundary - 0.035] of each of the three
    windows the colour is the entry below the boundary, and at the upper
    edge [boundary + 0.035] the blend has weight 1 and is the entry above
    it. *)
Theorem lerpColors_window_edges (p : palette) (b : nat) :
  rgb_palette p -> (b < 3)%nat ->
  let bd := nth b boundaries 0 in
  lerpColors p (bd - 0.035) = nth b p []
  /\ lerpColors p (bd + 0.035) = nth (b + 1) p [].
Proof.
  intros Hp Hb. cbv zeta.
  assert (Hlen : List.length (nth b p []) = List.length (nth (b + 1) p [])).
  { destruct (nth_rgb_palette p b Hp ltac:(lia)) as [H1 _].
    destruct (nth_rgb_palette p (b + 1) Hp ltac:(lia)) as [H2 _]. congruence. }
  split.
  - destruct b as [| [| [| b]]]; try lia; simpl nth.
    + apply lerpColors_first. lra.
    + apply lerpColors_band1. lra.
    + apply lerpColors_band2. lra.
  - rewrite (lerpColors_window p _ b (nth b boundaries 0) Hb eq_refl).
    + unfold window_blend. apply blend_1; [exact Hlen |].
      unfold smoothstep.
      replace ((nth b boundaries 0 + 0.035 - (nth b boundaries 0 - 0.035)) / 0.07)
        with 1 by lra.
      lra.
    + lra.
Qed.

Lemma lerpColors_window_edges_witness :
  lerpColors BG_RGB (0.5 - 0.035) = [250; 238; 198]%Z
  /\ lerpColors BG_RGB (0.5 + 0.035) = [225; 236; 235]%Z.
Proof.
  apply (lerpColors_window_edges BG_RGB 1 BG_RGB_palette). lia.
Defined.

End ColorRange.

(** ** The path sampler on a path of positive length *)

Section SamplerRegular.

Import Sampler.

Variable path : SVGPath.
Hypothesis positive_length : 0 < getTotalLength path.

Lemma sample_count_positive : (1 <= Math_ceil (getTotalLength path / 1.4))%Z.
Proof.
  pose proof (Math_ceil_bounds (getTotalLength path / 1.4)) as [_ Hup].
  assert (Hpos : 0 < getTotalLength path / 1.4) by (apply Rdiv_lt_0_compat; lra).
  assert (Hlt : (0 < Math_ceil (getTotalLength path / 1.4))%Z) by (apply lt_IZR; lra).
  lia.
Qed.

(** Sample [i], for [i <= n]: the point of the path at [i / n] of its
    length. *)
Lemma samplePoints_nth_full (i : nat) :
  (Z.of_nat i <= Math_ceil (getTotalLength path / 1.4))%Z ->
  let n := Math_ceil (getTotalLength path / 1.4) in
  let at_len := Num (INR i / IZR n * getTotalLength path) in
  nth_error (samplePoints path) i =
  Some {| x := px (getPointAtLength path at_len);
          y := py (getPointAtLength path at_len);
          t := Num (INR i / IZR n) |}.
Proof.
  intros Hi. cbv zeta. unfold samplePoints.
  rewrite nth_error_map, nth_error_seq.
  destruct (Nat.ltb_spec i (Z.to_nat (Math_ceil (getTotalLength path / 1.4) + 1)))
    as [_ | Hge]; [| lia].
  simpl. unfold js_div.
  pose proof sample_count_positive as Hn.
  destruct (Req_dec_T (IZR (Math_ceil (getTotalLength path / 1.4))) 0) as [Hz | _].
  - apply eq_IZR in Hz. lia.
  - reflexivity.
Qed.

(** X3. On a path of positive length the sampler gives [n + 1] samples
    for [n = ceil(length / 1.4)], at least two; sample [i] carries
    [t = i / n], a number of [[0, 1]], the first one [t = 0] and the last
    one [t = 1]. *)
Theorem samplePoints_regular_positions :
  let n := Math_ceil (getTotalLength path / 1.4) in
  let pts := samplePoints path in
  List.length pts = S (Z.to_nat n)
  /\ (2 <= List.length pts)%nat
  /\ (forall i : nat, (i <= Z.to_nat n)%nat ->
        option_map t (nth_error pts i) = Some (Num (INR i / IZR n))
        /\ 0 <= INR i / IZR n <= 1)
  /\ INR 0 / IZR n = 0
  /\ INR (Z.to_nat n) / IZR n = 1.
Proof.
  cbv zeta. pose proof sample_count_positive as Hn.
  set (n := Math_ceil (getTotalLength path / 1.4)) in *.
  assert (HnR : 0 < IZR n) by (apply IZR_lt; lia).
  assert (Hlen : List.length (samplePoints path) = S (Z.to_nat n)).
  { rewrite samplePoints_length. fold n. lia. }
  split; [exact Hlen |]. split; [lia |]. split; [| split].
  - intros i Hi.
    assert (HiZ : (Z.of_nat i <= n)%Z) by lia.
    split.
    + pose proof (samplePoints_nth_full i HiZ) as Hnth. cbv zeta in Hnth.
      fold n in Hnth. now rewrite Hnth.
    + assert (Hin : 0 <= INR i <= IZR n).
      { split; [apply pos_INR |]. rewrite INR_IZR_INZ. now apply IZR_le. }
      split.
      * apply Rmult_le_pos; [lra |]. left. now apply Rinv_0_lt_compat.
      * apply Rmult_le_reg_r with (IZR n); [exact HnR |].
        unfold Rdiv. rewrite Rmult_assoc, Rinv_l by lra. lra.
  - simpl. unfold Rdiv. apply Rmult_0_l.
  - rewrite INR_IZR_INZ, Z2Nat.id by lia.
    unfold Rdiv. apply Rinv_r. lra.
Qed.

(** X4. The path is measured at the lengths [i / n * length]: they start
    at 0, end at the total length, and two consecutive ones are
    [length / n] apart, which is more than 0 and at most the step 1.4. *)
Theorem samplePoints_spacing :
  let len := getTotalLength path in
  let n := Math_ceil (len / 1.4) in
  let at_len := fun i : nat => INR i / IZR n * len in
  (forall i : nat, (i <= Z.to_nat n)%nat ->
     option_map x (nth_error (samplePoints path) i)
       = Some (px (getPointAtLength path (Num (at_len i))))
     /\ option_map y (nth_error (samplePoints path) i)
       = Some (py (getPointAtLength path (Num (at_len i))))
     /\ 0 <= at_len i <= len)
  /\ at_len 0%nat = 0
  /\ at_len (Z.to_nat n) = len
  /\ (forall i : nat, at_len (S i) - at_len i = len / IZR n)
  /\ 0 < len / IZR n <= 1.4.
Proof.
  cbv zeta. pose proof sample_count_positive as Hn.
  pose proof (Math_ceil_bounds (getTotalLength path / 1.4)) as [_ Hup].
  set (len := getTotalLength path) in *.
  set (n := Math_ceil (len / 1.4)) in *.
  assert (HnR : 0 < IZR n) by (apply IZR_lt; lia).
  assert (Hinv : 0 < / IZR n) by now apply Rinv_0_lt_compat.
  split; [| split; [| split; [| split]]].
  - intros i Hi.
    assert (HiZ : (Z.of_nat i <= n)%Z) by lia.
    pose proof (samplePoints_nth_full i HiZ) as Hnth. cbv zeta in Hnth.
    fold len n in Hnth. rewrite Hnth. simpl.
    split; [reflexivity |]. split; [reflexivity |].
    assert (Hin : 0 <= INR i <= IZR n).
    { split; [apply pos_INR |]. rewrite INR_IZR_INZ. now apply IZR_le. }
    assert (Hfrac : 0 <= INR i / IZR n <= 1).
    { split.
      - apply Rmult_le_pos; lra.
      - apply Rmult_le_reg_r with (IZR n); [exact HnR |].
        unfold Rdiv. rewrite Rmult_assoc, Rinv_l by lra. lra. }
    split; [apply Rmult_le_pos; lra |].
    fold len in positive_length. nra.
  - simpl. unfold Rdiv. now rewrite !Rmult_0_l.
  - rewrite INR_IZR_INZ, Z2Nat.id by lia.
    unfold Rdiv. rewrite Rinv_r by lra. lra.
  - intros i. rewrite S_INR. unfold Rdiv. ring.
  - fold len in positive_length. split.
    + apply Rmult_lt_0_compat; assumption.
    + apply Rmult_le_reg_r with (IZR n); [exact HnR |].
      unfold Rdiv. rewrite Rmult_assoc, Rinv_l by lra.
      unfold Rdiv in Hup. lra.
Qed.

End SamplerRegular.

Lemma samplePoints_regular_positions_witness :
  (2 <= List.length (Sampler.samplePoints Sampler.path500))%nat.
Proof.
  assert (Hpos : 0 < Sampler.getTotalLength Sampler.path500) by (simpl; lra).
  apply (samplePoints_regular_positions Sampler.path500 Hpos).
Defined.

Lemma samplePoints_spacing_witness :
  0 < Sampler.getTotalLength Sampler.path500
        / IZR (Math_ceil (Sampler.getTotalLength Sampler.path500 / 1.4))
    <= 1.4.
Proof.
  assert (Hpos : 0 < Sampler.getTotalLength Sampler.path500) by (simpl; lra).
  apply (samplePoints_spacing Sampler.path500 Hpos).
Defined.

(** ** The sample of the marker *)

Section MarkerFacts.

Import Sampler Draw.

Lemma Math_floor_bounds (x : R) : IZR (Math_floor x) <= x < IZR (Math_floor x) + 1.
Proof.
  unfold Math_floor. destruct (base_Int_part x) as [Hlo Hhi]. lra.
Qed.

Lemma Math_floor_mono (x y : R) : x <= y -> (Math_floor x <= Math_floor y)%Z.
Proof.
  intros Hxy.
  pose proof (Math_floor_bounds x) as [Hx _].
  pose proof (Math_floor_bounds y) as [_ Hy].
  apply Z.lt_succ_r. apply lt_IZR. rewrite succ_IZR. lra.
Qed.

Lemma INR_pred (len : nat) : INR len - 1 = IZR (Z.of_nat len - 1).
Proof. rewrite minus_IZR, <- INR_IZR_INZ. reflexivity. Qed.

(** The clamped position of the marker. *)
Lemma clamp_range (d : R) : 0 <= Rmin (Rmax d 0) 0.998 <= 0.998.
Proof.
  unfold Rmin, Rmax.
  destruct (Rle_dec d 0); destruct (Rle_dec _ 0.998); lra.
Qed.

(** The floor term of an index, for a position [p] of [[0, 0.998]]: it is
    a valid index, and not the last one when there are two samples or
    more. *)
Lemma floor_index_range (p : R) (len : nat) :
  0 <= p <= 0.998 -> (1 <= len)%nat ->
  (0 <= Math_floor (p * (INR len - 1)) <= Z.of_nat len - 1)%Z
  /\ ((2 <= len)%nat -> (Math_floor (p * (INR len - 1)) <= Z.of_nat len - 2)%Z).
Proof.
  intros [Hp0 Hp1] Hlen.
  assert (HL : 0 <= INR len - 1).
  { apply le_INR in Hlen. simpl in Hlen. lra. }
  pose proof (Math_floor_bounds (p * (INR len - 1))) as [Hlo Hhi].
  assert (Hx0 : 0 <= p * (INR len - 1)) by (apply Rmult_le_pos; lra).
  assert (Hge : (0 <= Math_floor (p * (INR len - 1)))%Z).
  { apply Z.lt_succ_r. apply lt_IZR. rewrite succ_IZR. lra. }
  assert (Hx1 : p * (INR len - 1) <= INR len - 1) by nra.
  split; [split; [exact Hge |] |].
  - apply le_IZR. rewrite <- INR_pred. lra.
  - intros H2. apply le_INR in H2. simpl in H2.
    assert (Hlt : p * (INR len - 1) < INR len - 1) by nra.
    assert (Hz : (Math_floor (p * (INR len - 1)) < Z.of_nat len - 1)%Z).
    { apply lt_IZR. rewrite <- INR_pred. lra. }
    lia.
Qed.

Lemma markerIndex_floor (d : R) (len : nat) :
  (1 <= len)%nat ->
  markerIndex d len = Math_floor (Rmin (Rmax d 0) 0.998 * (INR len - 1)).
Proof.
  intros Hlen. unfold markerIndex. cbv zeta.
  destruct (floor_index_range _ len (clamp_range d) Hlen) as [[_ Hup] _].
  lia.
Qed.

(** X5. The index of the marker's sample, for any displayed value (also
    outside [[0, 1]]) and at least one sample: it is a valid index; with
    two samples or more it is never the last one, the seam of the closed
    path; it does not decrease when the displayed value grows; it is 0 for
    a displayed value of 0 or less. *)
Theorem markerIndex_in_range (d : R) (len : nat) :
  (1 <= len)%nat ->
  (0 <= markerIndex d len <= Z.of_nat len - 1)%Z
  /\ ((2 <= len)%nat -> (markerIndex d len <= Z.of_nat len - 2)%Z)
  /\ (forall d' : R, d <= d' -> (markerIndex d len <= markerIndex d' len)%Z)
  /\ (d <= 0 -> markerIndex d len = 0%Z).
Proof.
  intros Hlen.
  destruct (floor_index_range _ len (clamp_range d) Hlen) as [Hr Hlast].
  rewrite markerIndex_floor by exact Hlen.
  split; [exact Hr |]. split; [exact Hlast |]. split.
  - intros d' Hdd'. rewrite markerIndex_floor by exact Hlen.
    apply Math_floor_mono.
    assert (HL : 0 <= INR len - 1).
    { apply le_INR in Hlen. simpl in Hlen. lra. }
    apply Rmult_le_compat_r; [exact HL |].
    unfold Rmin, Rmax.
    destruct (Rle_dec d 0); destruct (Rle_dec d' 0);
      repeat match goal with |- context [Rle_dec ?a ?b] => destruct (Rle_dec a b) end;
      lra.
  - intros Hd.
    replace (Rmin (Rmax d 0) 0.998) with 0.
    + rewrite Rmult_0_l. unfold Math_floor. symmetry. apply Int_part_spec. lra.
    + unfold Rmin, Rmax. destruct (Rle_dec d 0); [| lra].
      destruct (Rle_dec 0 0.998); lra.
Qed.

Lemma markerIndex_in_range_witness :
  (0 <= markerIndex 1.7 359 <= Z.of_nat 359 - 1)%Z.
Proof. apply (markerIndex_in_range 1.7 359). lia. Defined.

End MarkerFacts.

(** ** The track stroke *)

Section TrackFacts.

Import Sampler Draw.

Lemma strokes_length (count : nat) (pts : list SamplePoint) :
  (S count <= List.length pts)%nat -> List.length (strokes count pts) = count.
Proof.
  revert pts. induction count as [| k IH]; intros pts Hlen.
  - now destruct pts.
  - destruct pts as [| p1 [| p2 rest]]; simpl in Hlen; try lia.
    simpl. f_equal. apply IH. simpl. lia.
Qed.

Lemma strokes_nth (count : nat) (pts : list SamplePoint) (i : nat) (p1 p2 : SamplePoint) :
  (i < count)%nat ->
  nth_error pts i = Some p1 -> nth_error pts (S i) = Some p2 ->
  nth_error (strokes count pts) i = Some (strokeTo p1 p2).
Proof.
  revert pts i. induction count as [| k IH]; intros pts i Hi H1 H2; [lia |].
  destruct pts as [| q1 [| q2 rest]].
  - destruct i; discriminate.
  - destruct i; simpl in H2; [discriminate | destruct i; discriminate].
  - destruct i as [| i].
    + simpl in *. congruence.
    + simpl. apply IH; [lia | exact H1 | exact H2].
Qed.

Lemma strokes_prefix (c c' : nat) (pts : list SamplePoint) :
  (c <= c')%nat -> strokes c pts = firstn c (strokes c' pts).
Proof.
  revert c' pts. induction c as [| k IH]; intros c' pts Hle.
  - now destruct pts.
  - destruct c' as [| k']; [lia |].
    destruct pts as [| p1 [| p2 rest]]; simpl; try reflexivity.
    f_equal. apply IH. lia.
Qed.

Lemma visibleIdx_range (progress : R) (len : nat) :
  (1 <= len)%nat ->
  (Z.to_nat (visibleIdx progress len) <= len - 1)%nat
  /\ ((2 <= len)%nat -> (Z.to_nat (visibleIdx progress len) <= len - 2)%nat).
Proof.
  intros Hlen. unfold visibleIdx.
  destruct (Rle_dec 0 progress) as [Hp | Hp].
  - assert (Hc : 0 <= Rmin progress 0.998 <= 0.998).
    { unfold Rmin. destruct (Rle_dec progress 0.998); lra. }
    destruct (floor_index_range _ len Hc Hlen) as [[H0 H1] H2].
    split; [lia |]. intros Hl2. specialize (H2 Hl2). lia.
  - assert (Hneg : (Math_floor (Rmin progress 0.998 * (INR len - 1)) <= 0)%Z).
    { pose proof (Math_floor_bounds (Rmin progress 0.998 * (INR len - 1))) as [Hlo _].
      assert (HL : 0 <= INR len - 1).
      { apply le_INR in Hlen. simpl in Hlen. lra. }
      assert (Hm : Rmin progress 0.998 <= 0).
      { unfold Rmin. destruct (Rle_dec progress 0.998); lra. }
      apply le_IZR. nra. }
    split; [lia |]. intros _. lia.
Qed.

(** X7. With a context, at least one sample and a progress of 0.003 or
    more, the canvas is stroked with exactly [visibleIdx] lines: line [i]
    joins sample [i] to sample [i + 1], the loop never runs out of samples
    (its [break] is not taken), and with two samples or more the last
    segment, the one that closes the path, is never drawn. *)
Theorem drawTrack_strokes
    (pts : list SamplePoint) (trans : option Anim.Crossfade) (progress : R) :
  pts <> [] -> 0.003 <= progress ->
  exists (style : Z * Z * Z) (segs : list Stroke),
    drawTrack true pts trans progress = Stroked style segs
    /\ List.length segs = Z.to_nat (visibleIdx progress (List.length pts))
    /\ ((2 <= List.length pts)%nat -> (List.length segs <= List.length pts - 2)%nat)
    /\ (forall i : nat, (i < List.length segs)%nat ->
          exists p1 p2 : SamplePoint,
            nth_error pts i = Some p1 /\ nth_error pts (S i) = Some p2
            /\ nth_error segs i = Some (strokeTo p1 p2)).
Proof.
  intros Hne Hp.
  assert (Hlen : (1 <= List.length pts)%nat).
  { destruct pts; [contradiction | simpl; lia]. }
  destruct (visibleIdx_range progress (List.length pts) Hlen) as [Hv1 Hv2].
  set (count := Z.to_nat (visibleIdx progress (List.length pts))) in *.
  assert (Hcount : List.length (strokes count pts) = count).
  { apply strokes_length. lia. }
  exists (trackColor trans progress), (strokes count pts).
  split; [| split; [exact Hcount | split]].
  - unfold drawTrack. simpl negb.
    destruct (Nat.eqb_spec (List.length pts) 0) as [H0 | _]; [lia |].
    simpl orb. cbv iota.
    destruct (Rlt_dec progress 0.003) as [Hlt | _]; [lra | reflexivity].
  - intros H2. rewrite Hcount. now apply Hv2.
  - intros i Hi. rewrite Hcount in Hi.
    destruct (nth_error pts i) as [p1 |] eqn:E1;
      [| apply nth_error_None in E1; lia].
    destruct (nth_error pts (S i)) as [p2 |] eqn:E2;
      [| apply nth_error_None in E2; lia].
    exists p1, p2. split; [reflexivity |]. split; [reflexivity |].
    now apply strokes_nth.
Qed.

Lemma samplePoints_path500_nonempty : samplePoints path500 <> [].
Proof.
  intros H. apply (f_equal (@List.length _)) in H.
  rewrite samplePoints_length in H. simpl in H.
  assert (Hn : (1 <= Math_ceil (500 / 1.4))%Z).
  { apply (sample_count_positive path500). simpl. lra. }
  lia.
Qed.

Lemma drawTrack_strokes_witness :
  exists (style : Z * Z * Z) (segs : list Stroke),
    drawTrack true (samplePoints path500) None 0.42 = Stroked style segs
    /\ List.length segs
       = Z.to_nat (visibleIdx 0.42 (List.length (samplePoints path500))).
Proof.
  assert (Hp : 0.003 <= 0.42) by lra.
  destruct (drawTrack_strokes (samplePoints path500) None 0.42
              samplePoints_path500_nonempty Hp)
    as (style & segs & H1 & H2 & _).
  exists style, segs. now split.
Defined.

Lemma visibleIdx_mono (p p' : R) (len : nat) :
  (1 <= len)%nat -> p <= p' -> (visibleIdx p len <= visibleIdx p' len)%Z.
Proof.
  intros Hlen Hpp. unfold visibleIdx. apply Math_floor_mono.
  assert (HL : 0 <= INR len - 1).
  { apply le_INR in Hlen. simpl in Hlen. lra. }
  apply Rmult_le_compat_r; [exact HL |].
  unfold Rmin. destruct (Rle_dec p 0.998); destruct (Rle_dec p' 0.998); lra.
Qed.

(** X8. The stroke only grows with the progress: the lines drawn for a
    progress are the first lines of those drawn for any larger progress,
    and from 0.998 on the stroke does not change any more. *)
Theorem track_grows_with_progress
    (pts : list SamplePoint) (p p' : R) :
  pts <> [] -> p <= p' ->
  let segs := strokes (Z.to_nat (visibleIdx p (List.length pts))) pts in
  let segs' := strokes (Z.to_nat (visibleIdx p' (List.length pts))) pts in
  segs = firstn (List.length segs) segs'
  /\ (0.998 <= p -> segs' = segs).
Proof.
  intros Hne Hpp. cbv zeta.
  assert (Hlen : (1 <= List.length pts)%nat).
  { destruct pts; [contradiction | simpl; lia]. }
  pose proof (visibleIdx_mono p p' (List.length pts) Hlen Hpp) as Hmono.
  destruct (visibleIdx_range p (List.length pts) Hlen) as [Hv _].
  split.
  - rewrite strokes_length by lia. apply strokes_prefix. lia.
  - intros Hsat. unfold visibleIdx, Rmin.
    destruct (Rle_dec p 0.998); destruct (Rle_dec p' 0.998);
      try reflexivity; try lra.
    + assert (Hp : p = 0.998) by lra. assert (Hp' : p' = 0.998) by lra.
      now rewrite Hp, Hp'.
    + assert (Hp : p = 0.998) by lra. now rewrite Hp.
Qed.

Lemma track_grows_with_progress_witness :
  let pts := samplePoints path500 in
  strokes (Z.to_nat (visibleIdx 0.2 (List.length pts))) pts
  = firstn (List.length (strokes (Z.to_nat (visibleIdx 0.2 (List.length pts))) pts))
           (strokes (Z.to_nat (visibleIdx 0.6 (List.length pts))) pts).
Proof.
  intros pts.
  assert (Hpp : 0.2 <= 0.6) by lra.
  apply (track_grows_with_progress pts 0.2 0.6 samplePoints_path500_nonempty Hpp).
Defined.

(** X9. A line of the track starts at its first sample and ends 0.3
    beyond its second sample, on the straight line through both, when the
    two samples differ; it ends at the second sample when they
    coincide. *)
Theorem strokeTo_overlap (p1 p2 : SamplePoint) :
  let s := strokeTo p1 p2 in
  let dx := x p2 - x p1 in
  let dy := y p2 - y p1 in
  x1 s = x p1 /\ y1 s = y p1
  /\ ((dx <> 0 \/ dy <> 0) ->
        sqrt ((x2 s - x p2) * (x2 s - x p2) + (y2 s - y p2) * (y2 s - y p2)) = 0.3
        /\ exists k : R, 0 < k /\ x2 s - x p2 = k * dx /\ y2 s - y p2 = k * dy)
  /\ (dx = 0 -> dy = 0 -> x2 s = x p2 /\ y2 s = y p2).
Proof.
  cbv zeta. unfold strokeTo. cbv zeta. simpl.
  set (dx := x p2 - x p1). set (dy := y p2 - y p1).
  set (S2 := dx * dx + dy * dy).
  assert (HS : 0 <= S2) by (unfold S2; nra).
  split; [reflexivity |]. split; [reflexivity |]. split.
  - intros Hne.
    assert (HSpos : 0 < S2) by (unfold S2; destruct Hne; nra).
    assert (HL : 0 < sqrt S2) by now apply sqrt_lt_R0.
    destruct (Rgt_dec (sqrt S2) 0) as [_ | Hn]; [| lra].
    assert (Hsq : sqrt S2 * sqrt S2 = S2) by (apply sqrt_sqrt; lra).
    split.
    + replace ((x p2 + dx * (0.3 / sqrt S2) - x p2) * (x p2 + dx * (0.3 / sqrt S2) - x p2)
               + (y p2 + dy * (0.3 / sqrt S2) - y p2) * (y p2 + dy * (0.3 / sqrt S2) - y p2))
        with (0.3 * 0.3).
      * apply sqrt_square. lra.
      * transitivity (0.3 / sqrt S2 * (0.3 / sqrt S2) * S2);
          [| unfold S2; ring].
        rewrite <- Hsq at 3. field. lra.
    + exists (0.3 / sqrt S2). split.
      * apply Rdiv_lt_0_compat; lra.
      * split; ring.
  - intros Hx Hy.
    assert (HS0 : S2 = 0) by (unfold S2; rewrite Hx, Hy; ring).
    rewrite HS0, sqrt_0.
    destruct (Rgt_dec 0 0) as [Hgt | _]; [lra |].
    rewrite Hx, Hy. split; ring.
Qed.

Lemma strokeTo_overlap_witness :
  let p1 := {| x := 115; y := 2; t := Num 0 |} in
  let p2 := {| x := 116.4; y := 2; t := Num 0.01 |} in
  sqrt ((x2 (strokeTo p1 p2) - x p2) * (x2 (strokeTo p1 p2) - x p2)
        + (y2 (strokeTo p1 p2) - y p2) * (y2 (strokeTo p1 p2) - y p2)) = 0.3.
Proof.
  intros p1 p2.
  apply (strokeTo_overlap p1 p2). left. simpl. lra.
Defined.

(** X10. Once the easing has settled on a progress that is not negative,
    the marker sits on the sample at which the stroke ends: for a
    displayed value equal to the progress, the marker's index is
    [visibleIdx]. *)
Theorem marker_at_end_of_stroke (p : R) (len : nat) :
  (1 <= len)%nat -> 0 <= p -> markerIndex p len = visibleIdx p len.
Proof.
  intros Hlen Hp. rewrite markerIndex_floor by exact Hlen.
  unfold visibleIdx. do 2 f_equal.
  unfold Rmax. destruct (Rle_dec p 0); [| reflexivity].
  f_equal. lra.
Qed.

Lemma marker_at_end_of_stroke_witness : markerIndex 0.42 359 = visibleIdx 0.42 359.
Proof. apply (marker_at_end_of_stroke 0.42 359); [lia | lra]. Defined.

End TrackFacts.

(** ** Crossfaded colours *)

Section DrawColours.

Import Sampler Draw.

Lemma mix_channel_between (a b : Z) (f : R) :
  0 <= f <= 1 ->
  (Z.min a b <= Math_round (IZR a * (1 - f) + IZR b * f) <= Z.max a b)%Z.
Proof.
  intros [Hf0 Hf1]. apply Math_round_between.
  destruct (Z.le_ge_cases a b) as [Hab | Hab].
  - rewrite Z.min_l, Z.max_r by lia. apply IZR_le in Hab. split; nra.
  - rewrite Z.min_r, Z.max_l by lia. apply IZR_le in Hab. split; nra.
Qed.

Lemma mix3_zero (from target : Color.color) :
  mix3 from target 0 = [nth 0 from 0; nth 1 from 0; nth 2 from 0]%Z.
Proof.
  unfold mix3.
  repeat f_equal;
    match goal with
    | |- Math_round (IZR ?a * (1 - 0) + _ * 0) = _ =>
        replace (IZR a * (1 - 0) + IZR (nth _ target 0%Z) * 0) with (IZR a) by lra;
        apply Math_round_IZR
    end.
Qed.

(** X11. The colour of a crossfade, for a fade [f] of [[0, 1]]: three
    channels, each between the channel of the frozen colour and that of
    the target colour (so in 0..255 when both are); at fade 0, the fade a
    crossfade is created with, it is the frozen colour's channels. *)
Theorem mix3_between (from target : Color.color) (f : R) :
  0 <= f <= 1 ->
  List.length (mix3 from target f) = 3%nat
  /\ (forall k : nat, (k < 3)%nat ->
        (Z.min (nth k from 0) (nth k target 0)
         <= nth k (mix3 from target f) 0
         <= Z.max (nth k from 0) (nth k target 0))%Z)
  /\ (f = 0 -> mix3 from target f = [nth 0 from 0; nth 1 from 0; nth 2 from 0]%Z).
Proof.
  intros Hf. split; [reflexivity |]. split.
  - intros k Hk. destruct k as [| [| [| k]]]; try lia; simpl;
      now apply mix_channel_between.
  - intros ->. apply mix3_zero.
Qed.

Lemma mix3_between_witness :
  List.length (mix3 [249; 174; 119]%Z [146; 191; 219]%Z 0.25) = 3%nat.
Proof. apply (mix3_between [249; 174; 119]%Z [146; 191; 219]%Z 0.25). lra. Defined.

End DrawColours.

(** ** Frames and renders in any order *)

Section HostFacts.

Import Anim Host.

Lemma ease_step_bounds0 (dt : R) : 0 <= dt -> 0 <= 1 - exp (- EASE * dt) < 1.
Proof.
  intros Hdt. unfold EASE.
  pose proof (exp_pos (- (12) * dt)) as Hpos.
  destruct (Req_dec_T dt 0) as [-> | Hne].
  - rewrite Rmult_0_r, exp_0. lra.
  - assert (Hlt : exp (- (12) * dt) < exp 0) by (apply exp_increasing; lra).
    rewrite exp_0 in Hlt. lra.
Qed.

(** One frame of an elapsed time [dt >= 0] keeps the displayed position
    between the previous one and the target, in the snap branch too. *)
Lemma tick_dt_between (dt : R) (st : State) :
  0 <= dt ->
  Rmin (displayRef st) (targetRef st) <= displayRef (tick_dt dt st)
    <= Rmax (displayRef st) (targetRef st).
Proof.
  intros Hdt. rewrite tick_dt_display.
  destruct (ease_step_bounds0 dt Hdt) as [Hs0 Hs1].
  set (s := 1 - exp (- EASE * dt)) in *.
  generalize (displayRef st) as d. generalize (targetRef st) as g. intros g d.
  unfold Rmin, Rmax.
  destruct (Rlt_dec (g - d) (-0.3)); [destruct (Rle_dec d g); lra |].
  destruct (Rlt_dec (Rabs (g - d)) 0.001); destruct (Rle_dec d g); try lra; split; nra.
Qed.

(** X13. A frame with a timestamp that is not before the one of the frame
    before never moves the displayed position past the target or away
    from it: the new position lies between the old one and the target
    (also when the frame snaps, when no time has passed, or after a stall
    of any length), and the target is not touched. *)
Theorem tick_stays_between (now : R) (st : State) :
  lastTime st <= now ->
  Rmin (displayRef st) (targetRef st) <= displayRef (tick now st)
    <= Rmax (displayRef st) (targetRef st)
  /\ targetRef (tick now st) = targetRef st
  /\ lastTime (tick now st) = now.
Proof.
  intros Hmono. split; [| split; reflexivity].
  rewrite tick_display. apply tick_dt_between.
  now apply frame_dt_range.
Qed.

Lemma tick_stays_between_witness :
  let st := render 1 0.6 (mount 1 0.2) in
  Rmin (displayRef st) (targetRef st) <= displayRef (tick 5000 st)
    <= Rmax (displayRef st) (targetRef st).
Proof.
  intros st. apply (tick_stays_between 5000 st). simpl. lra.
Defined.






Lemma render_keeps (d : Z) (p : R) (st : State) :
  0 <= p <= 1 -> in_unit st -> fade_active st ->
  in_unit (render d p st) /\ fade_active (render d p st)
  /\ lastTime (render d p st) = lastTime st.
Proof.
  intros Hp [Hd Hg] Hfade. unfold render, dayBackwardEffect; simpl.
  destruct (Z.eqb d (prevDayNumRef st)); simpl.
  - unfold in_unit, fade_active; simpl. auto.
  - destruct (Z.ltb d (prevDayNumRef st)); unfold in_unit, fade_active; simpl.
    + repeat split; try lra; injection H as <-; simpl; lra.
    + auto.
Qed.

Lemma tick_keeps (now : R) (st : State) :
  lastTime st <= now -> in_unit st -> fade_active st ->
  in_unit (tick now st) /\ fade_active (tick now st)
  /\ lastTime (tick now st) = now.
Proof.
  intros Hmono [Hd Hg] Hfade.
  pose proof (frame_dt_range (lastTime st) now Hmono) as [Hdt0 _].
  split; [| split; [| reflexivity]].
  - pose proof (tick_dt_between (frame_dt (lastTime st) now) st Hdt0) as Hb.
    unfold in_unit. rewrite tick_display. split; [| exact Hg].
    revert Hb. unfold Rmin, Rmax.
    destruct (Rle_dec (displayRef st) (targetRef st)); lra.
  - unfold fade_active. intros tr'. rewrite tick_crossfade, tick_dt_crossfade.
    destruct (dayTransitionRef st) as [tr |] eqn:Htr; [| discriminate].
    specialize (Hfade tr Htr).
    destruct (Rlt_dec (fade tr) 1) as [_ | Hn]; [| lra].
    destruct (Rge_dec (Rmin (fade tr + frame_dt (lastTime st) now * 2.5) 1) 1)
      as [_ | Hlt]; [discriminate |].
    intros H. injection H as <-. simpl.
    split; [| lra].
    unfold Rmin. destruct (Rle_dec (fade tr + frame_dt (lastTime st) now * 2.5) 1); lra.
Qed.

Lemma run_keeps (es : list event) (st : State) :
  well_behaved (lastTime st) es -> in_unit st -> fade_active st ->
  in_unit (run es st) /\ fade_active (run es st).
Proof.
  revert st. induction es as [| e rest IH]; intros st Hwb Hu Hf.
  - now split.
  - destruct e as [d p | now]; simpl in Hwb; destruct Hwb as [He Hrest].
    + destruct (render_keeps d p st He Hu Hf) as (Hu' & Hf' & Hl).
      apply (IH (render d p st)); [now rewrite Hl | exact Hu' | exact Hf'].
    + destruct (tick_keeps now st He Hu Hf) as (Hu' & Hf' & Hl).
      apply (IH (tick now st)); [now rewrite Hl | exact Hu' | exact Hf'].
Qed.

Lemma mount_keeps (d : Z) (p : R) :
  0 <= p <= 1 -> in_unit (mount d p) /\ fade_active (mount d p).
Proof.
  intros Hp. unfold in_unit, fade_active; simpl.
  split; [lra | discriminate].
Qed.

(** X15. From the mount on, whatever the order of renders and frames,
    the displayed position and the target stay in [[0, 1]], provided the
    host passes a progress of [[0, 1]] and timestamps that do not go
    back: snaps, easing steps and backward day changes all keep the
    bounds. *)
Theorem displayed_stays_in_unit_interval (d : Z) (p : R) (es : list event) :
  0 <= p <= 1 ->
  well_behaved 0 es ->
  0 <= displayRef (run es (mount d p)) <= 1
  /\ 0 <= targetRef (run es (mount d p)) <= 1.
Proof.
  intros Hp Hwb. destruct (mount_keeps d p Hp) as [Hu Hf].
  now destruct (run_keeps es (mount d p) Hwb Hu Hf) as [Hu' _].
Qed.

Lemma displayed_stays_in_unit_interval_witness :
  let es := [Frame 16; Render 1 0.6; Frame 32; Render 2 0.05; Frame 48;
             Render 1 0.95; Frame 64] in
  0 <= displayRef (run es (mount 1 0)) <= 1.
Proof.
  intros es.
  apply (displayed_stays_in_unit_interval 1 0 es); [lra |].
  simpl. repeat split; lra.
Defined.

(** X16. Under the same conditions on the host, a crossfade that the
    reference holds always has a fade of at least 0 and below 1: it is
    created at 0, only grows, and the reference is cleared in the frame
    in which 1 is reached. *)
Theorem held_crossfade_is_active (d : Z) (p : R) (es : list event) (tr : Crossfade) :
  0 <= p <= 1 ->
  well_behaved 0 es ->
  dayTransitionRef (run es (mount d p)) = Some tr ->
  0 <= fade tr < 1.
Proof.
  intros Hp Hwb Hsome. destruct (mount_keeps d p Hp) as [Hu Hf].
  destruct (run_keeps es (mount d p) Hwb Hu Hf) as [_ Hf'].
  now apply Hf'.
Qed.

Lemma held_crossfade_is_active_witness :
  exists tr : Crossfade,
    dayTransitionRef (run [Render 1 0.95] (mount 2 0.05)) = Some tr
    /\ 0 <= fade tr < 1.
Proof.
  exists {| fromColor := Color.lerpColors Color.TRACK_RGB 0; fade := 0 |}.
  split; [reflexivity |].
  apply (held_crossfade_is_active 2 0.05 [Render 1 0.95]);
    [lra | simpl; repeat split; lra | reflexivity].
Defined.

(** The distance to the target shrinks by the factor [e^(-12 dt)] at
    least in one frame. *)
Lemma tick_dt_gap (dt : R) (st : State) :
  0 <= dt ->
  Rabs (targetRef st - displayRef (tick_dt dt st))
  <= exp (- EASE * dt) * Rabs (targetRef st - displayRef st).
Proof.
  intros Hdt. rewrite tick_dt_display.
  pose proof (exp_pos (- EASE * dt)) as Hq.
  generalize (displayRef st) as d. generalize (targetRef st) as g. intros g d.
  assert (Hnn : 0 <= exp (- EASE * dt) * Rabs (g - d)).
  { apply Rmult_le_pos; [lra | apply Rabs_pos]. }
  destruct (Rlt_dec (g - d) (-0.3)).
  { replace (g - g) with 0 by ring. now rewrite Rabs_R0. }
  destruct (Rlt_dec (Rabs (g - d)) 0.001).
  { replace (g - g) with 0 by ring. now rewrite Rabs_R0. }
  replace (g - (d + (g - d) * (1 - exp (- EASE * dt))))
    with (exp (- EASE * dt) * (g - d)) by ring.
  rewrite Rabs_mult, (Rabs_pos_eq (exp (- EASE * dt))) by lra. lra.
Qed.

Lemma ticks_succ (dt : R) (n : nat) (st : State) :
  ticks dt (S n) st = tick_dt dt (ticks dt n st).
Proof. reflexivity. Qed.

Lemma ticks_keep_target (dt : R) (n : nat) (st : State) :
  targetRef (ticks dt n st) = targetRef st.
Proof.
  induction n as [| n IH]; [reflexivity |].
  now rewrite ticks_succ, tick_dt_target.
Qed.

Lemma ticks_gap_bound (dt : R) (n : nat) (st : State) :
  0 <= dt ->
  Rabs (targetRef st - displayRef (ticks dt n st))
  <= exp (- EASE * dt) ^ n * Rabs (targetRef st - displayRef st).
Proof.
  intros Hdt. induction n as [| n IH].
  - simpl. lra.
  - rewrite ticks_succ.
    pose proof (tick_dt_gap dt (ticks dt n st) Hdt) as Hstep.
    rewrite ticks_keep_target in Hstep.
    pose proof (exp_pos (- EASE * dt)) as Hq.
    simpl pow.
    apply Rle_trans with
      (exp (- EASE * dt) * Rabs (targetRef st - displayRef (ticks dt n st)));
      [exact Hstep |].
    rewrite Rmult_assoc. apply Rmult_le_compat_l; [lra | exact IH].
Qed.

(** X17. With the target held, [n] frames of the same elapsed time
    [dt >= 0] bring the displayed position to within [e^(-12 dt)] to the
    power [n] times the initial distance of the target, whichever
    branches the frames take; the target itself is not moved. *)
Theorem easing_contracts (dt : R) (n : nat) (st : State) :
  0 <= dt ->
  Rabs (targetRef st - displayRef (ticks dt n st))
  <= exp (- EASE * dt) ^ n * Rabs (targetRef st - displayRef st)
  /\ targetRef (ticks dt n st) = targetRef st.
Proof.
  intros Hdt. split; [now apply ticks_gap_bound | apply ticks_keep_target].
Qed.

Lemma easing_contracts_witness :
  let st := render 1 0.5 (mount 1 0) in
  Rabs (targetRef st - displayRef (ticks 0.016 10 st))
  <= exp (- EASE * 0.016) ^ 10 * Rabs (targetRef st - displayRef st).
Proof.
  intros st. apply (easing_contracts 0.016 10 st). lra.
Defined.

Lemma tick_dt_settles (dt : R) (st : State) :
  Rabs (targetRef st - displayRef st) < 0.001 ->
  displayRef (tick_dt dt st) = targetRef st.
Proof.
  intros Hnear. rewrite tick_dt_display.
  destruct (Rlt_dec (targetRef st - displayRef st) (-0.3)); [reflexivity |].
  destruct (Rlt_dec (Rabs (targetRef st - displayRef st)) 0.001);
    [reflexivity | contradiction].
Qed.

Lemma ticks_settled_stay (dt : R) (n : nat) (st : State) :
  displayRef st = targetRef st -> displayRef (ticks dt n st) = targetRef st.
Proof.
  intros Heq. induction n as [| n IH]; [exact Heq |].
  rewrite ticks_succ. rewrite tick_dt_settles; rewrite ticks_keep_target.
  - reflexivity.
  - rewrite IH. replace (targetRef st - targetRef st) with 0 by ring.
    rewrite Rabs_R0. lra.
Qed.

(** X18. The easing always settles: with the target held and frames of
    any fixed elapsed time [dt > 0], from any displayed position, there is
    a frame from which on the displayed position is the target exactly. *)
Theorem easing_always_settles (dt : R) (st : State) :
  0 < dt ->
  exists N : nat, forall n : nat, (N <= n)%nat ->
    displayRef (ticks dt n st) = targetRef st.
Proof.
  intros Hdt.
  set (q := exp (- EASE * dt)).
  assert (Hq : 0 < q < 1).
  { destruct (ease_step_bounds dt Hdt) as [H0 H1]. fold q in H0, H1. lra. }
  set (e0 := Rabs (targetRef st - displayRef st)).
  assert (He0 : 0 <= e0) by apply Rabs_pos.
  assert (Heps : 0 < 0.001 / (e0 + 1)) by (apply Rdiv_lt_0_compat; lra).
  destruct (pow_lt_1_zero q) with (y := 0.001 / (e0 + 1)) as [N HN];
    [rewrite Rabs_pos_eq; lra | exact Heps |].
  exists (S N). intros n Hn.
  destruct n as [| n]; [lia |].
  assert (Hnear : Rabs (targetRef st - displayRef (ticks dt N st)) < 0.001).
  { apply Rle_lt_trans with (q ^ N * e0).
    - apply ticks_gap_bound. lra.
    - specialize (HN N (Nat.le_refl N)).
      rewrite Rabs_pos_eq in HN by (apply pow_le; lra).
      assert (Hpow : 0 <= q ^ N) by (apply pow_le; lra).
      apply Rle_lt_trans with (q ^ N * (e0 + 1)); [nra |].
      apply Rmult_lt_compat_r with (r := e0 + 1) in HN; [| lra].
      unfold Rdiv in HN. rewrite Rmult_assoc, Rinv_l, Rmult_1_r in HN by lra. lra. }
  assert (Hat : displayRef (ticks dt (S N) st) = targetRef st).
  { rewrite ticks_succ. rewrite tick_dt_settles; rewrite ticks_keep_target;
      [reflexivity | exact Hnear]. }
  replace (S n) with ((S n - S N) + S N)%nat by lia.
  unfold ticks. rewrite Nat.iter_add. fold (ticks dt (S N) st).
  fold (ticks dt (S n - S N) (ticks dt (S N) st)).
  rewrite ticks_settled_stay; rewrite ticks_keep_target; [reflexivity | exact Hat].
Qed.

Lemma easing_always_settles_witness :
  exists N : nat, forall n : nat, (N <= n)%nat ->
    displayRef (ticks 0.05 n (render 1 1 (mount 1 0))) = 1.
Proof.
  apply (easing_always_settles 0.05 (render 1 1 (mount 1 0))). lra.
Defined.

(** X19. No sweep after a backward day change: the render that sees the
    day index go down leaves the displayed position on the new progress,
    and frames of any elapsed times keep it there, and the target with
    it, until the next render. *)
Theorem no_sweep_after_day_backward
    (dayNumber : Z) (progress : R) (st : State) (dts : list R) :
  (dayNumber < prevDayNumRef st)%Z ->
  displayRef (frames dts (render dayNumber progress st)) = progress
  /\ targetRef (frames dts (render dayNumber progress st)) = progress.
Proof.
  intros Hlt.
  destruct (render_day_backward dayNumber progress st Hlt) as [Hd Hg].
  revert Hd Hg. generalize (render dayNumber progress st) as s.
  induction dts as [| d rest IH]; intros s Hd Hg; [now split |].
  change (frames (d :: rest) s) with (frames rest (tick_dt d s)).
  apply IH.
  - rewrite tick_dt_settles; [exact Hg |].
    rewrite Hd, Hg. replace (progress - progress) with 0 by ring.
    rewrite Rabs_R0. lra.
  - now rewrite tick_dt_target.
Qed.

Lemma no_sweep_after_day_backward_witness :
  displayRef (frames [0.016; 0.016; 0.05] (render 1 0.95 (mount 2 0.05))) = 0.95.
Proof.
  apply (no_sweep_after_day_backward 1 0.95 (mount 2 0.05) [0.016; 0.016; 0.05]).
  simpl. lia.
Defined.

End HostFacts.

(** ** The label machine under rapid updates and teardown *)

Section LabelRuns.

Import Label.

(** A state in its exit phase for the props it shows: the exit timer,
    due in [r] milliseconds, is the only timer pending. *)
Lemma exit_phase_runs (st : State) (id r : nat) :
  textPhase st = exiting ->
  (1 <= r)%nat ->
  timers st = [ {| tid := id; due := now st + r;
                   action := exitDone (dayNumber st) (distance st) |} ] ->
  (forall j : nat, (j < r)%nat -> elapse j st = set_now (now st + j) st)
  /\ (forall j : nat, (r <= j < r + 280)%nat ->
        textPhase (elapse j st) = entering
        /\ displayDay (elapse j st) = dayNumber st
        /\ displayDist (elapse j st) = distance st)
  /\ (forall j : nat, (r + 280 <= j)%nat ->
        textPhase (elapse j st) = idle
        /\ displayDay (elapse j st) = dayNumber st
        /\ displayDist (elapse j st) = distance st
        /\ timers (elapse j st) = []).
Proof.
  intros Hph Hr Ht.
  assert (E0 : forall j : nat, (j < r)%nat -> elapse j st = set_now (now st + j) st).
  { intros j Hj. apply elapse_quiet. rewrite Ht. intros tm [<- | []]. simpl. lia. }
  assert (Er : elapse r st =
            {| dayNumber := dayNumber st; distance := distance st;
               textPhase := entering; displayDay := dayNumber st;
               displayDist := distance st;
               prevDayRef := prevDayRef st; exitCleanup := exitCleanup st;
               now := now st + r;
               timers := [ {| tid := nextId st; due := now st + r + 280;
                              action := enterDone |} ];
               nextId := S (nextId st) |}).
  { destruct r as [| r']; [lia |].
    rewrite elapse_succ, E0 by lia.
    rewrite (exit_timer_fires _ id (dayNumber st) (distance st)).
    - simpl. f_equal; try lia. do 2 f_equal. lia.
    - exact Hph.
    - simpl. rewrite Ht. do 2 f_equal. lia. }
  assert (E1 : forall j : nat, (j < 280)%nat ->
            elapse (r + j) st = set_now (now st + r + j) (elapse r st)).
  { intros j Hj. rewrite elapse_plus, Er.
    rewrite elapse_quiet; [reflexivity |].
    simpl. intros tm [<- | []]. simpl. lia. }
  assert (E2 : elapse (r + 280) st =
            {| dayNumber := dayNumber st; distance := distance st;
               textPhase := idle; displayDay := dayNumber st;
               displayDist := distance st;
               prevDayRef := prevDayRef st; exitCleanup := exitCleanup st;
               now := now st + r + 280; timers := [];
               nextId := S (nextId st) |}).
  { replace (r + 280)%nat with (S (r + 279)) by lia.
    rewrite elapse_succ, E1, Er by lia.
    rewrite (enter_timer_fires _ (nextId st)).
    - simpl. f_equal. lia.
    - reflexivity.
    - reflexivity.
    - simpl. do 2 f_equal. lia. }
  split; [exact E0 |]. split.
  - intros j Hj. replace j with (r + (j - r))%nat by lia.
    rewrite E1, Er by lia. now repeat split.
  - intros j Hj. replace j with (r + 280 + (j - (r + 280)))%nat by lia.
    rewrite elapse_plus, E2.
    rewrite elapse_quiet by (simpl; intros tm []).
    now repeat split.
Qed.

(** A second day change during the exit phase of a first one: the exit
    timer of the first is cleared and a new one is the only one pending. *)
Lemma render_day_change_in_exit
    (st : State) (d1 d2 : Z) (dist1 dist2 : string) (k : nat) :
  at_rest st -> d1 <> dayNumber st -> (k < 240)%nat -> d2 <> d1 ->
  render d2 dist2 (elapse k (render d1 dist1 st)) =
  {| dayNumber := d2; distance := dist2;
     textPhase := exiting; displayDay := displayDay st;
     displayDist := displayDist st; prevDayRef := d2;
     exitCleanup := Some (S (nextId st));
     now := now st + k;
     timers := [ {| tid := S (nextId st); due := now st + k + 240;
                    action := exitDone d2 dist2 |} ];
     nextId := S (S (nextId st)) |}.
Proof.
  intros Hrest Hne1 Hk Hne2.
  rewrite (render_day_change d1 dist1 st) by assumption.
  rewrite elapse_quiet by (simpl; intros tm [<- | []]; simpl; lia).
  unfold render, rerender, distanceEffect, labelEffect, runCleanup, clearTimeout; simpl.
  destruct (Z.eqb_spec d2 d1) as [He | _]; [contradiction |]. simpl.
  rewrite Nat.eqb_refl. simpl.
  destruct (Z.eqb_spec d2 d1) as [He | _]; [contradiction |]. simpl.
  rewrite Z.eqb_refl. reflexivity.
Qed.

(** X20. Last change wins.  When the day changes a second time while the
    label is still fading out from a first change, [k < 240] ms after it,
    the first exit timer is cleared: the label keeps the old text for
    another 240ms, is then swapped to the day and distance of the second
    change, and is idle 520ms after the second change, with no timer
    left; the day of the first change is never displayed. *)
Theorem last_day_change_wins
    (st : State) (d1 d2 : Z) (dist1 dist2 : string) (k : nat) :
  at_rest st -> d1 <> dayNumber st -> (k < 240)%nat -> d2 <> d1 ->
  let st2 := render d2 dist2 (elapse k (render d1 dist1 st)) in
  (forall j : nat, (j < 240)%nat ->
     textPhase (elapse j st2) = exiting
     /\ displayDay (elapse j st2) = displayDay st
     /\ displayDist (elapse j st2) = displayDist st)
  /\ (forall j : nat, (240 <= j < 520)%nat ->
     textPhase (elapse j st2) = entering
     /\ displayDay (elapse j st2) = d2
     /\ displayDist (elapse j st2) = dist2)
  /\ (forall j : nat, (520 <= j)%nat ->
     textPhase (elapse j st2) = idle
     /\ displayDay (elapse j st2) = d2
     /\ displayDist (elapse j st2) = dist2
     /\ timers (elapse j st2) = []).
Proof.
  intros Hrest Hne1 Hk Hne2. cbv zeta.
  rewrite render_day_change_in_exit by assumption.
  match goal with |- context [elapse _ ?s] => set (s2 := s) end.
  destruct (exit_phase_runs s2 (S (nextId st)) 240) as (E0 & E1 & E2);
    [reflexivity | lia | reflexivity |].
  split; [| split].
  - intros j Hj. rewrite E0 by exact Hj. now repeat split.
  - intros j Hj. apply E1. lia.
  - intros j Hj. apply E2. lia.
Qed.

Lemma last_day_change_wins_witness :
  let st2 := render 3 "120.0km" (elapse 100 (render 2 "98.4km" (mount 1 "152.7km"))) in
  displayDay (elapse 239 st2) = 1%Z
  /\ displayDay (elapse 240 st2) = 3%Z
  /\ textPhase (elapse 520 st2) = idle.
Proof.
  intros st2.
  assert (Hrest : at_rest (mount 1 "152.7km")) by (unfold at_rest; now repeat split).
  assert (Hne1 : 2%Z <> dayNumber (mount 1 "152.7km")) by (simpl; lia).
  assert (Hk : (100 < 240)%nat) by lia.
  assert (Hne2 : 3%Z <> 2%Z) by lia.
  destruct (last_day_change_wins (mount 1 "152.7km") 2 3 "98.4km" "120.0km" 100
              Hrest Hne1 Hk Hne2) as (H0 & H1 & H2).
  split; [apply (H0 239%nat); lia |].
  split; [apply (H1 240%nat); lia |].
  apply (H2 520%nat). lia.
Defined.

Lemma render_distance_change_in_exit
    (st : State) (d : Z) (dist dist' : string) (k : nat) :
  at_rest st -> d <> dayNumber st -> (k < 240)%nat -> dist' <> dist ->
  render d dist' (elapse k (render d dist st)) =
  {| dayNumber := d; distance := dist';
     textPhase := exiting; displayDay := displayDay st;
     displayDist := displayDist st; prevDayRef := d;
     exitCleanup := None;
     now := now st + k; timers := [];
     nextId := S (nextId st) |}.
Proof.
  intros Hrest Hne Hk Hdist.
  rewrite (render_day_change d dist st) by assumption.
  rewrite elapse_quiet by (simpl; intros tm [<- | []]; simpl; lia).
  unfold render, rerender, distanceEffect, labelEffect, runCleanup, clearTimeout; simpl.
  rewrite Z.eqb_refl.
  destruct (String.eqb_spec dist' dist) as [He | _]; [contradiction |]. simpl.
  rewrite Nat.eqb_refl, Z.eqb_refl. simpl.
  rewrite ?Z.eqb_refl. reflexivity.
Qed.

(** X21. In an exit phase that began at rest, a render that changes only
    the distance clears the exit timer (the effect's cleanup runs on any
    change of its dependencies) and starts no new one (the day is the one
    already seen): no timer is left, so without another day change the
    phase stays exiting, and the old day and distance stay in the hidden
    label, for ever. *)
Theorem distance_change_in_exit_phase_strands_label
    (st : State) (d : Z) (dist dist' : string) (k : nat) :
  at_rest st -> d <> dayNumber st -> (k < 240)%nat -> dist' <> dist ->
  let st2 := render d dist' (elapse k (render d dist st)) in
  timers st2 = []
  /\ forall m : nat,
       textPhase (elapse m st2) = exiting
       /\ displayDay (elapse m st2) = displayDay st
       /\ displayDist (elapse m st2) = displayDist st
       /\ timers (elapse m st2) = [].
Proof.
  intros Hrest Hne Hk Hdist. cbv zeta.
  rewrite (render_distance_change_in_exit st d dist dist' k) by assumption.
  split; [reflexivity |].
  intros m. rewrite elapse_quiet by (simpl; intros tm []).
  now repeat split.
Qed.

Lemma distance_change_in_exit_phase_strands_label_witness :
  let st2 := render 2 "99.0km" (elapse 100 (render 2 "98.4km" (mount 1 "152.7km"))) in
  textPhase (elapse 5000 st2) = exiting /\ displayDay (elapse 5000 st2) = 1%Z.
Proof.
  intros st2.
  assert (Hrest : at_rest (mount 1 "152.7km")) by (unfold at_rest; now repeat split).
  assert (Hne : 2%Z <> dayNumber (mount 1 "152.7km")) by (simpl; lia).
  assert (Hk : (100 < 240)%nat) by lia.
  assert (Hdist : "99.0km"%string <> "98.4km"%string) by discriminate.
  destruct (distance_change_in_exit_phase_strands_label (mount 1 "152.7km") 2
              "98.4km" "99.0km" 100 Hrest Hne Hk Hdist) as [_ Hall].
  destruct (Hall 5000%nat) as (H1 & H2 & _). now split.
Defined.

(** X22. Teardown during an exit phase that began at rest is clean: the
    cleanup clears the exit timer, no timer is left, and nothing of the
    label changes afterwards. *)
Theorem unmount_in_exit_phase_leaves_no_timer
    (st : State) (d : Z) (dist : string) (k : nat) :
  at_rest st -> d <> dayNumber st -> (k < 240)%nat ->
  let gone := unmount (elapse k (render d dist st)) in
  timers gone = []
  /\ forall m : nat, elapse m gone = set_now (now gone + m) gone.
Proof.
  intros Hrest Hne Hk. cbv zeta.
  assert (Ht : timers (unmount (elapse k (render d dist st))) = []).
  { rewrite render_day_change by assumption.
    rewrite elapse_quiet by (simpl; intros tm [<- | []]; simpl; lia).
    unfold unmount, runCleanup, clearTimeout; simpl. now rewrite Nat.eqb_refl. }
  split; [exact Ht |].
  intros m. apply elapse_quiet. rewrite Ht. intros tm [].
Qed.

Lemma unmount_in_exit_phase_leaves_no_timer_witness :
  timers (unmount (elapse 100 (render 2 "98.4km" (mount 1 "152.7km")))) = [].
Proof.
  assert (Hrest : at_rest (mount 1 "152.7km")) by (unfold at_rest; now repeat split).
  assert (Hne : 2%Z <> dayNumber (mount 1 "152.7km")) by (simpl; lia).
  assert (Hk : (100 < 240)%nat) by lia.
  apply (unmount_in_exit_phase_leaves_no_timer (mount 1 "152.7km") 2 "98.4km" 100
           Hrest Hne Hk).
Defined.

End LabelRuns.

(** ** What every reachable state of the label keeps *)

Section LabelInvariants.

Import Label.

Ltac split_ifs :=
  repeat match goal with
    | |- context [if ?c then _ else _] => destruct c eqn:?; simpl
    end.

Lemma In_filter_sub {A : Type} (f : A -> bool) (l : list A) (a : A) :
  In a (filter f l) -> In a l.
Proof. intros H. apply filter_In in H. tauto. Qed.

(** What a timer that fires leaves of the props, the cleanup and the
    queue. *)
Lemma fire_due_shape (st : State) (tm : timer) :
  dayNumber (fire_due st tm) = dayNumber st
  /\ distance (fire_due st tm) = distance st
  /\ exitCleanup (fire_due st tm) = exitCleanup st
  /\ (forall tm' : timer, In tm' (timers (fire_due st tm)) ->
        In tm' (timers st) \/ action tm' = enterDone).
Proof.
  destruct st as [dn di ph dd ddist pdr ec nw tms nid].
  unfold fire_due; simpl.
  destruct (existsb _ tms); simpl; [| repeat split; auto].
  destruct (action tm) as [d dist |];
    unfold fire, rerender, distanceEffect, clearTimeout; simpl; split_ifs;
    repeat split; auto; intros tm' Hin;
    try (apply in_app_or in Hin; destruct Hin as [Hin | [<- | []]]; [| now right]);
    left; eapply In_filter_sub; exact Hin.
Qed.

Lemma fire_due_exit_timers (st : State) (tm : timer) :
  exit_timers_current st -> exit_timers_current (fire_due st tm).
Proof.
  intros HJ tm' d dist Hin Hact.
  destruct (fire_due_shape st tm) as (H1 & H2 & H3 & Hsub).
  rewrite H1, H2, H3.
  destruct (Hsub tm' Hin) as [Hold | Henter]; [| congruence].
  now apply (HJ tm' d dist).
Qed.

Lemma fire_due_synced (st : State) (tm : timer) :
  idle_label_synced st -> idle_label_synced (fire_due st tm).
Proof.
  destruct st as [dn di ph dd ddist pdr ec nw tms nid].
  unfold idle_label_synced, fire_due; simpl. intros HI.
  destruct (existsb _ tms); simpl; [| exact HI].
  destruct (action tm) as [d dist |];
    unfold fire, rerender, distanceEffect, clearTimeout; simpl.
  - split_ifs; intros Hph Hday; try discriminate.
  - destruct ph; simpl; split_ifs; intros Hph Hday; auto;
      try (apply Z.eqb_neq in Heqb; congruence);
      try (rewrite Z.eqb_refl in *; discriminate).
Qed.

Lemma fold_fire_due_keeps (l : list timer) (st : State) :
  exit_timers_current st -> idle_label_synced st ->
  exit_timers_current (fold_left fire_due l st)
  /\ idle_label_synced (fold_left fire_due l st).
Proof.
  revert st. induction l as [| tm rest IH]; intros st HJ HI; simpl; [now split |].
  apply IH; [now apply fire_due_exit_timers | now apply fire_due_synced].
Qed.

Lemma elapse_keeps (ms : nat) (st : State) :
  exit_timers_current st -> idle_label_synced st ->
  exit_timers_current (elapse ms st) /\ idle_label_synced (elapse ms st).
Proof.
  revert st. induction ms as [| k IH]; intros st HJ HI; simpl; [now split |].
  apply IH; unfold advance1; cbv zeta;
    apply fold_fire_due_keeps;
    destruct st; unfold exit_timers_current, idle_label_synced in *; simpl in *; auto.
Qed.

Lemma render_same_props (d : Z) (dist : string) (st : State) :
  (Z.eqb d (dayNumber st) && String.eqb dist (distance st))%bool = true ->
  render d dist st = st.
Proof.
  intros Hsame. unfold render. cbv zeta. rewrite Hsame.
  apply andb_prop in Hsame. destruct Hsame as [Hd Hdist].
  apply Z.eqb_eq in Hd. apply String.eqb_eq in Hdist. subst.
  now destruct st.
Qed.

(** What a render with changed props leaves of the timer queue. *)
Lemma render_shape (d : Z) (dist : string) (st : State) :
  (Z.eqb d (dayNumber st) && String.eqb dist (distance st))%bool = false ->
  dayNumber (render d dist st) = d
  /\ distance (render d dist st) = dist
  /\ ((d = prevDayRef st
       /\ timers (render d dist st) = timers (runCleanup st)
       /\ exitCleanup (render d dist st) = None)
      \/ (d <> prevDayRef st
          /\ timers (render d dist st)
             = timers (runCleanup st)
               ++ [ {| tid := nextId st; due := now st + 240; action := exitDone d dist |} ]
          /\ exitCleanup (render d dist st) = Some (nextId st))).
Proof.
  intros Hchg. unfold render. cbv zeta. rewrite Hchg.
  destruct st as [dn di ph dd ddist pdr ec nw tms nid].
  unfold rerender, distanceEffect, labelEffect, runCleanup; simpl.
  destruct ec as [id |]; simpl;
    destruct (Z.eqb_spec d pdr) as [He | Hne]; simpl; split_ifs;
    (split; [reflexivity |]); (split; [reflexivity |]);
    solve [ left; repeat split; auto | right; repeat split; auto ].
Qed.

Lemma runCleanup_no_exit_timer (st : State) (tm : timer) (d : Z) (dist : string) :
  exit_timers_current st ->
  In tm (timers (runCleanup st)) -> action tm = exitDone d dist -> False.
Proof.
  intros HJ Hin Hact. unfold runCleanup in Hin.
  destruct (exitCleanup st) as [id |] eqn:Hec.
  - unfold clearTimeout in Hin; simpl in Hin.
    apply filter_In in Hin. destruct Hin as [Hin Hkeep].
    destruct (HJ tm d dist Hin Hact) as (_ & _ & Hid).
    rewrite Hec in Hid. injection Hid as ->.
    rewrite Nat.eqb_refl in Hkeep. discriminate.
  - destruct (HJ tm d dist Hin Hact) as (_ & _ & Hid). congruence.
Qed.

Lemma render_exit_timers (d : Z) (dist : string) (st : State) :
  exit_timers_current st -> exit_timers_current (render d dist st).
Proof.
  intros HJ.
  destruct (Z.eqb d (dayNumber st) && String.eqb dist (distance st))%bool eqn:Hchg.
  - now rewrite render_same_props.
  - destruct (render_shape d dist st Hchg) as (Hd & Hdist & Hcase).
    intros tm d' dist' Hin Hact. rewrite Hd, Hdist.
    destruct Hcase as [(_ & Ht & _) | (_ & Ht & Hec)]; rewrite Ht in Hin.
    + exfalso. eapply runCleanup_no_exit_timer; eauto.
    + apply in_app_or in Hin. destruct Hin as [Hin | [<- | []]].
      * exfalso. eapply runCleanup_no_exit_timer; eauto.
      * simpl in Hact. injection Hact as <- <-. rewrite Hec. now repeat split.
Qed.

Lemma render_synced (d : Z) (dist : string) (st : State) :
  idle_label_synced st -> idle_label_synced (render d dist st).
Proof.
  intros HI.
  destruct (Z.eqb d (dayNumber st) && String.eqb dist (distance st))%bool eqn:Hchg.
  - now rewrite render_same_props.
  - unfold render. cbv zeta. rewrite Hchg. clear Hchg HI.
    destruct st as [dn di ph dd ddist pdr ec nw tms nid].
    unfold idle_label_synced, rerender, distanceEffect, labelEffect, runCleanup; simpl.
    destruct ec as [id |]; simpl;
      destruct (Z.eqb_spec d pdr) as [He | Hne]; simpl;
      destruct ph; simpl; split_ifs; simpl; intros Hph Hday;
      try discriminate; try reflexivity;
      try (match goal with
           | H : (_ =? _)%Z = false |- _ => apply Z.eqb_neq in H; congruence
           end).
Qed.

Lemma reachable_keeps (st : State) :
  reachable st -> exit_timers_current st /\ idle_label_synced st.
Proof.
  induction 1 as [d dist | d dist st _ [HJ HI] | ms st _ [HJ HI]].
  - split.
    + intros tm d' dist' [].
    + intros _ _. reflexivity.
  - split; [now apply render_exit_timers | now apply render_synced].
  - now apply elapse_keeps.
Qed.

(** X23. In every reachable state a pending exit timer is current: its
    callback carries the day and distance of the last render, and it is
    the timer the effect's cleanup will clear.  Any later change of the
    props clears it, so the label is never swapped to props that have
    been superseded. *)
Theorem pending_exit_timer_is_current
    (st : State) (tm : timer) (d : Z) (dist : string) :
  reachable st ->
  In tm (timers st) ->
  action tm = exitDone d dist ->
  d = dayNumber st /\ dist = distance st /\ exitCleanup st = Some (tid tm).
Proof.
  intros Hreach. destruct (reachable_keeps st Hreach) as [HJ _]. apply HJ.
Qed.

Lemma pending_exit_timer_is_current_witness :
  let st := elapse 100 (render 2 "98.4km" (mount 1 "152.7km")) in
  2%Z = dayNumber st /\ "98.4km"%string = distance st
  /\ exitCleanup st = Some 1%nat.
Proof.
  intros st.
  apply (pending_exit_timer_is_current st
           {| tid := 1; due := 240; action := exitDone 2 "98.4km" |} 2 "98.4km").
  - apply reachable_elapse, reachable_render, reachable_mount.
  - vm_compute. now left.
  - reflexivity.
Defined.

(** X24. In every reachable state, an idle label that shows the current
    day shows the current distance: whatever renders and timers came
    before, stale ones included, the displayed distance is the distance
    prop. *)
Theorem idle_label_shows_current_distance (st : State) :
  reachable st ->
  textPhase st = idle ->
  dayNumber st = displayDay st ->
  displayDist st = distance st.
Proof.
  intros Hreach. destruct (reachable_keeps st Hreach) as [_ HI]. exact HI.
Qed.

Lemma idle_label_shows_current_distance_witness :
  let st := elapse 520 (render 2 "98.4km" (mount 1 "152.7km")) in
  displayDist st = distance st.
Proof.
  intros st.
  apply (idle_label_shows_current_distance st).
  - apply reachable_elapse, reachable_render, reachable_mount.
  - reflexivity.
  - reflexivity.
Defined.

End LabelInvariants.
